(** * Smart-ambulance traffic dashboard: the proximity-triggered signal model

    A verification development for [streamlit_dashbaord.py]: the great-circle
    distance [haversine], the session state (tracked ambulance position and
    the light of every intersection) and the MQTT callback [on_message].

    Python floats are IEEE-754 binary64 numbers and are modelled by Rocq's
    primitive floats, whose operations are specified by [SpecFloat].  The
    functions of the C mathematics library that [math.sin], [math.cos],
    [math.atan2] and [**] call are not part of the repository; they are
    parameters of the development (record [Runtime]), and every assumption
    made on them is stated where it is used.  A session is a record of the
    two dictionaries the callback reads and writes and of the connection
    flag; the statements about [on_message] hold for every such record.
    Which store a callback reaches through [st.session_state] depends on the
    thread it runs on; that is modelled apart ([store], [context]).  A
    message is represented by what decoding and parsing its payload
    yields. *)

From Stdlib Require Import Floats ZArith Lia Bool.
From stdpp Require Import base option list gmap strings.
Set Warnings "-inexact-float,-register-all".

(** * Python values and exceptions *)

(** The exceptions the modelled code can raise.  All of them derive from
    [Exception], which is what [on_message] catches. *)
Inductive exn :=
  | UnicodeDecodeError
  | JSONDecodeError
  | AttributeError
  | KeyError
  | TypeError
  | ValueError
  | OverflowError.

(** The outcome of evaluating a Python expression. *)
Inductive result (A : Type) :=
  | Ok (a : A)
  | Raise (e : exn).
Arguments Ok {A} a.
Arguments Raise {A} e.

#[global] Instance result_ret : MRet result := @Ok.
#[global] Instance result_bind : MBind result :=
  λ A B k r, match r with Ok a => k a | Raise e => Raise e end.

(** The objects [json.loads] builds: [None], [bool], [int], [float], [str],
    [list] and [dict] (a [dict] is kept as its list of bindings, looked up
    from the front). *)
Inductive value :=
  | VNone
  | VBool (b : bool)
  | VInt (z : Z)
  | VFloat (f : float)
  | VStr (s : string)
  | VList (l : list value)
  | VDict (kvs : list (string * value)).

Fixpoint dict_lookup (k : string) (kvs : list (string * value)) : option value :=
  match kvs with
  | [] => None
  | (k', v) :: rest => if String.eqb k k' then Some v else dict_lookup k rest
  end.

(** [data.get]: only a [dict] has the attribute; the bound method returns the
    value of the key, or the given default when the key is missing. *)
Definition getattr_get (data : value) : result (string → value → value) :=
  match data with
  | VDict kvs => Ok (λ k dflt, default dflt (dict_lookup k kvs))
  | _ => Raise AttributeError
  end.

(** [d[k]] on a [dict] object of the session. *)
Definition getitem (d : gmap string value) (k : string) : result value :=
  match d !! k with
  | Some v => Ok v
  | None => Raise KeyError
  end.

(** * The platform: C library functions and number parsing *)

(** What the interpreter delegates to the platform: the [libm] functions
    behind [math.sin], [math.cos], [math.atan2] and [float.__pow__], and the
    decimal-to-binary conversion behind [float(str)]. *)
Record Runtime := {
  c_sin : float → float;
  c_cos : float → float;
  c_atan2 : float → float → float;
  c_pow : float → float → float;
  str_to_float : string → option float
}.

(** Assumptions on [libm], each used only where a statement names it.
    [sin(+0) = +0] and NaN propagation are fixed by C Annex F; oddness of
    [sin] and [|cos x| <= 1] hold for the usual implementations. *)
Definition sin_zero (rt : Runtime) : Prop := c_sin rt 0%float = 0%float.
Definition sin_nan (rt : Runtime) : Prop := c_sin rt nan = nan.
Definition sin_odd (rt : Runtime) : Prop :=
  ∀ x, c_sin rt (- x)%float = (- c_sin rt x)%float.
Definition cos_bounded (rt : Runtime) : Prop :=
  ∀ x, is_finite x = true → (abs (c_cos rt x) <=? 1)%float = true.

(** [int.__float__]: round to nearest, ties to even; [OverflowError] when the
    rounded value is not finite. *)
Definition float_of_int (z : Z) : result float :=
  let f := SF2Prim (binary_normalize prec emax z 0 false) in
  if is_infinity f then Raise OverflowError else Ok f.

(** [copysign(x, y)] of C. *)
Definition copysign (x y : float) : float :=
  if get_sign y then (- abs x)%float else abs x.

Definition Py_MATH_PI : float := 3.141592653589793%float.

Section Python.
Context (rt : Runtime).
Local Open Scope float_scope.

(** [float(v)]. *)
Definition float_ (v : value) : result float :=
  match v with
  | VFloat f => Ok f
  | VInt z => float_of_int z
  | VBool b => Ok (if b then 1 else 0)
  | VStr s =>
      match str_to_float rt s with
      | Some f => Ok f
      | None => Raise ValueError
      end
  | VNone | VList _ | VDict _ => Raise TypeError
  end.

(** [math_1] of [mathmodule.c], the wrapper of every one-argument function:
    a NaN result for a non-NaN argument is a domain error, an infinite
    result for a finite argument a range or domain error. *)
Definition math_1 (func : float → float) (can_overflow : bool) (x : float)
  : result float :=
  let r := func x in
  if is_nan r && negb (is_nan x) then Raise ValueError
  else if is_infinity r && is_finite x then
    Raise (if can_overflow then OverflowError else ValueError)
  else Ok r.

Definition math_sin : float → result float := math_1 (c_sin rt) false.
Definition math_cos : float → result float := math_1 (c_cos rt) false.
Definition math_sqrt : float → result float := math_1 sqrt false.

(** [m_atan2] of [mathmodule.c]: the special cases are decided before the
    platform's [atan2] is consulted. *)
Definition m_atan2 (y x : float) : float :=
  if is_nan x || is_nan y then nan
  else if is_infinity y then
    if is_infinity x then
      if copysign 1 x =? 1 then copysign (0.25 * Py_MATH_PI) y
      else copysign (0.75 * Py_MATH_PI) y
    else copysign (0.5 * Py_MATH_PI) y
  else if is_infinity x || (y =? 0) then
    if copysign 1 x =? 1 then copysign 0 y
    else copysign Py_MATH_PI y
  else c_atan2 rt y x.

(** [math_2] of [mathmodule.c]. *)
Definition math_2 (func : float → float → float) (x y : float) : result float :=
  let r := func x y in
  if is_nan r then
    if negb (is_nan x) && negb (is_nan y) then Raise ValueError else Ok r
  else if is_infinity r then
    if is_finite x && is_finite y then Raise OverflowError else Ok r
  else Ok r.

Definition math_atan2 : float → float → result float := math_2 m_atan2.

(** [math.radians]: one multiplication by the constant [pi / 180]. *)
Definition degToRad : float := Py_MATH_PI / 180.
Definition math_radians (x : float) : float := x * degToRad.

(** [iv ** 2], that is [float_pow] of [floatobject.c] at the exponent [2.0]:
    NaN, infinities, zeros, the sign and [1.0] are settled by the
    interpreter, the platform's [pow] sees a positive finite base, and an
    infinite result is an [OverflowError]. *)
Definition float_pow_2 (iv : float) : result float :=
  if is_nan iv then Ok iv
  else if is_infinity iv then Ok (abs iv)
  else if iv =? 0 then Ok 0
  else
    let iv := if iv <? 0 then - iv else iv in
    if iv =? 1 then Ok 1
    else
      let ix := c_pow rt iv 2 in
      if is_infinity ix then Raise OverflowError else Ok ix.

(** ** HELPERS *)

(** [haversine(lat1, lon1, lat2, lon2)]: distance in meters between two
    lat/lon.  The calls that can raise are sequenced in Python's
    left-to-right evaluation order. *)
Definition haversine (lat1 lon1 lat2 lon2 : float) : result float :=
  let R := 6371000 in
  let phi1 := math_radians lat1 in
  let phi2 := math_radians lat2 in
  let dphi := math_radians (lat2 - lat1) in
  let dlambda := math_radians (lon2 - lon1) in
  s1 ← math_sin (dphi / 2);
  p1 ← float_pow_2 s1;
  c1 ← math_cos phi1;
  c2 ← math_cos phi2;
  s2 ← math_sin (dlambda / 2);
  p2 ← float_pow_2 s2;
  let a := p1 + c1 * c2 * p2 in
  q1 ← math_sqrt a;
  q2 ← math_sqrt (1 - a);
  t ← math_atan2 q1 q2;
  let c := 2 * t in
  mret (R * c).

(** The squared half-chord term [math.sin(radians(d) / 2) ** 2]. *)
Definition half_chord (d : float) : result float :=
  math_sin (math_radians d / 2) ≫= float_pow_2.

(** What [haversine] computes from the value [a] on. *)
Definition central_angle (a : float) : result float :=
  q1 ← math_sqrt a;
  q2 ← math_sqrt (1 - a);
  t ← math_atan2 q1 q2;
  mret (6371000 * (2 * t)).
End Python.

(** * CONFIG *)

Record intersection := {
  inter_name : string;
  inter_lat : float;
  inter_lng : float
}.

(** List of sample intersections (lat, lon) to simulate traffic lights. *)
Definition INTERSECTIONS : list intersection := [
  {| inter_name := "Intersection A"; inter_lat := 12.9716; inter_lng := 77.5946 |};
  {| inter_name := "Intersection B"; inter_lat := 12.9750; inter_lng := 77.5900 |};
  {| inter_name := "Intersection C"; inter_lat := 12.9680; inter_lng := 77.6000 |}
].

(** Distance threshold in meters to trigger green light. *)
Definition GREEN_DISTANCE_METERS : float := 200.0.

(** * SESSION STATE *)

Record session_state := {
  ambulance : gmap string value;
  lights : gmap string string;
  mqtt_connected : bool
}.

(** The state a fresh session starts from: the default location, every
    light red, not connected. *)
Definition initial_lights : gmap string string :=
  list_to_map ((λ it, (inter_name it, "red")) <$> INTERSECTIONS).

Definition initial_state : session_state := {|
  ambulance := {[ "lat" := VFloat 12.9716; "lng" := VFloat 77.5946;
                  "time" := VNone; "speed" := VNone ]};
  lights := initial_lights;
  mqtt_connected := false
|}.

(** * MQTT CALLBACKS *)

(** Commands over the session: they may raise, and what they wrote before
    raising stays written. *)
Definition Cmd (A : Type) : Type := session_state → result A * session_state.

#[global] Instance cmd_ret : MRet Cmd := λ A a st, (Ok a, st).
#[global] Instance cmd_bind : MBind Cmd :=
  λ A B k m st,
    match m st with
    | (Ok a, st') => k a st'
    | (Raise e, st') => (Raise e, st')
    end.

Definition lift {A} (r : result A) : Cmd A := λ st, (r, st).

(** [st.session_state.ambulance[k]] *)
Definition read_ambulance (k : string) : Cmd value :=
  λ st, (getitem (ambulance st) k, st).

(** [st.session_state.ambulance = d] *)
Definition assign_ambulance (d : gmap string value) : Cmd unit :=
  λ st, (Ok (), {| ambulance := d; lights := lights st;
                   mqtt_connected := mqtt_connected st |}).

(** [st.session_state.lights[k] = v] *)
Definition assign_light (k v : string) : Cmd unit :=
  λ st, (Ok (), {| ambulance := ambulance st; lights := <[k := v]> (lights st);
                   mqtt_connected := mqtt_connected st |}).

(** [for x in xs: body(x)] *)
Fixpoint for_each {A} (body : A → Cmd unit) (xs : list A) : Cmd unit :=
  match xs with
  | [] => mret ()
  | x :: rest => body x ≫= λ _, for_each body rest
  end.

(** An MQTT message, seen through what
    [json.loads(msg.payload.decode("utf-8"))] evaluates to: the parsed object,
    or [UnicodeDecodeError] / [JSONDecodeError]. *)
Record message := { loads_payload : result value }.

Section Callbacks.
Context (rt : Runtime).

(** The first statements of the [try] block: decode, parse, and read the
    three fields.  Nothing is written. *)
Definition read_update (msg : message) : Cmd (float * float * value) :=
  data ← lift (loads_payload msg);
  get ← lift (getattr_get data);
  old_lat ← read_ambulance "lat";
  lat ← lift (float_ rt (get "lat" old_lat));
  old_lng ← read_ambulance "lng";
  lng ← lift (float_ rt (get "lng" old_lng));
  let ts := get "time" VNone in
  mret (lat, lng, ts).

(** One round of the loop over [INTERSECTIONS]. *)
Definition update_light (lat lng : float) (inter : intersection) : Cmd unit :=
  d ← lift (haversine rt lat lng (inter_lat inter) (inter_lng inter));
  if (d <=? GREEN_DISTANCE_METERS)%float
  then assign_light (inter_name inter) "green"
  else assign_light (inter_name inter) "red".

(** The body of the [try] block of [on_message]. *)
Definition on_message_try (msg : message) : Cmd unit :=
  u ← read_update msg;
  let '(lat, lng, ts) := u in
  assign_ambulance {[ "lat" := VFloat lat; "lng" := VFloat lng; "time" := ts ]} ≫= λ _,
  for_each (update_light lat lng) INTERSECTIONS.

(** [on_message]: [except Exception] swallows whatever the body raised;
    the writes made before the exception remain. *)
Definition on_message (msg : message) (st : session_state) : session_state :=
  (on_message_try msg st).2.

(** The states the callback can produce from a fresh session. *)
Inductive reachable : session_state → Prop :=
  | reachable_initial : reachable initial_state
  | reachable_message st msg :
      reachable st → reachable (on_message msg st).

(** Processing a sequence of messages in delivery order. *)
Definition run (msgs : list message) (st : session_state) : session_state :=
  foldl (λ s m, on_message m s) st msgs.
End Callbacks.

(** The tracked position, when both coordinates are floats. *)
Definition position (st : session_state) : option (float * float) :=
  match ambulance st !! "lat", ambulance st !! "lng" with
  | Some (VFloat la), Some (VFloat lo) => Some (la, lo)
  | _, _ => None
  end.

(** A platform given by first-order approximations ([sin x ~ x], [cos x ~ 1],
    [atan2 y x ~ y / x]); it satisfies every assumption above and serves to
    evaluate the model on concrete inputs. *)
Definition small_angle_runtime : Runtime := {|
  c_sin := λ x, x;
  c_cos := λ x, if is_finite x then 1%float else nan;
  c_atan2 := λ y x, (y / x)%float;
  c_pow := λ x y, if (y =? 2)%float then (x * x)%float else nan;
  str_to_float := λ s, None
|}.

(** * Vocabulary of the statements *)

(** What the first statements of the [try] block evaluate to. *)
Definition parse_update (rt : Runtime) (st : session_state) (msg : message)
  : result (float * float * value) :=
  (read_update rt msg st).1.

(** The session after [st.session_state.ambulance = {...}]. *)
Definition store_position (st : session_state) (lat lng : float) (ts : value)
  : session_state :=
  {| ambulance := {[ "lat" := VFloat lat; "lng" := VFloat lng; "time" := ts ]};
     lights := lights st;
     mqtt_connected := mqtt_connected st |}.

(** A message carrying a JSON object. *)
Definition json_object (kvs : list (string * value)) : message :=
  {| loads_payload := Ok (VDict kvs) |}.

(** A malformed message: the payload is not valid JSON, or a [lat] / [lng]
    field is present and [float] rejects it. *)
Inductive malformed (rt : Runtime) (msg : message) : Prop :=
  | malformed_payload e :
      loads_payload msg = Raise e → malformed rt msg
  | malformed_lat kvs v e :
      loads_payload msg = Ok (VDict kvs) →
      dict_lookup "lat" kvs = Some v → float_ rt v = Raise e →
      malformed rt msg
  | malformed_lng kvs v e :
      loads_payload msg = Ok (VDict kvs) →
      dict_lookup "lng" kvs = Some v → float_ rt v = Raise e →
      malformed rt msg.

(** The site is within the threshold of the stored position. *)
Definition within_threshold (rt : Runtime) (st : session_state)
    (inter : intersection) : Prop :=
  ∃ lat lng d,
    position st = Some (lat, lng) ∧
    haversine rt lat lng (inter_lat inter) (inter_lng inter) = Ok d ∧
    (d <=? GREEN_DISTANCE_METERS)%float = true.

(** The invariant of the specification: a light is green exactly when its
    site is within the threshold of the stored position, and red otherwise. *)
Definition spec_invariant (rt : Runtime) (st : session_state) : Prop :=
  ∀ inter, inter ∈ INTERSECTIONS →
    (lights st !! inter_name inter = Some "green" ↔ within_threshold rt st inter) ∧
    (¬ within_threshold rt st inter → lights st !! inter_name inter = Some "red").

(** A message the callback drops before storing anything. *)
Definition rejected (rt : Runtime) (st : session_state) (msg : message) : Prop :=
  ∃ e, parse_update rt st msg = Raise e.

(** A message whose payload is not valid JSON. *)
Definition garbage : message := {| loads_payload := Raise JSONDecodeError |}.

(** The message of a vehicle standing at Intersection A, and the session it
    leaves behind on the first-order platform. *)
Definition at_intersection_A : message :=
  json_object [("lat", VFloat 12.9716); ("lng", VFloat 77.5946);
               ("time", VStr "10:15:00")].

Definition session_at_A : session_state :=
  on_message small_angle_runtime at_intersection_A initial_state.

(** The correctly rounded values of [sin], [cos] and [x^2] at the five
    arguments met when the distance from [(-12.97159997, -102.4054)] to
    Intersection A is computed; the GNU C library returns them. *)
Definition correctly_rounded_near_antipode (rt : Runtime) : Prop :=
  c_sin rt 0.22639712898989708%float = 0.22446805704648146%float ∧
  c_pow rt 0.22446805704648146%float 2%float = 0.05038590863422245%float ∧
  c_cos rt (-0.22639712872809767)%float = 0.9744814474787653%float ∧
  c_cos rt 0.22639712925169647%float = 0.9744814473612341%float ∧
  c_sin rt 1.5707963267948966%float = 1%float.

(** A platform that returns those values, and first-order approximations
    elsewhere. *)
Definition near_antipode_runtime : Runtime := {|
  c_sin := λ x,
    if (x =? 0.22639712898989708)%float then 0.22446805704648146%float
    else if (x =? 1.5707963267948966)%float then 1%float
    else x;
  c_cos := λ x,
    if (x =? -0.22639712872809767)%float then 0.9744814474787653%float
    else if (x =? 0.22639712925169647)%float then 0.9744814473612341%float
    else if is_finite x then 1%float else nan;
  c_atan2 := λ y x, (y / x)%float;
  c_pow := λ x y, if (y =? 2)%float then (x * x)%float else nan;
  str_to_float := λ s, None
|}.

(** The position message of a vehicle about 3 mm from the antipode of
    Intersection A. *)
Definition near_antipode_of_A : message :=
  json_object [("lat", VFloat (-12.97159997)); ("lng", VFloat (-102.4054))].

(** * The rest of the script: connection callback, thread, page *)



(** ** [st.session_state] as the callbacks find it *)

(** The session store of Streamlit holds the attributes created so far.
    The callbacks and the page use three of them. *)
Record store := {
  attr_ambulance : option (gmap string value);
  attr_lights : option (gmap string string);
  attr_mqtt_connected : option bool
}.

Definition empty_store : store :=
  {| attr_ambulance := None; attr_lights := None; attr_mqtt_connected := None |}.

(** A store in which the three attributes exist. *)
Definition of_session (st : session_state) : store :=
  {| attr_ambulance := Some (ambulance st);
     attr_lights := Some (lights st);
     attr_mqtt_connected := Some (mqtt_connected st) |}.

(** The SESSION STATE block at the top of the script: each attribute is
    created with its default unless the session has it already.  After the
    block the three attributes exist. *)
Definition init_session (s : store) : session_state := {|
  ambulance :=
    match attr_ambulance s with
    | None => {[ "lat" := VFloat 12.9716; "lng" := VFloat 77.5946;
                 "time" := VNone; "speed" := VNone ]}
    | Some d => d
    end;
  lights :=
    match attr_lights s with
    | None => list_to_map ((λ it, (inter_name it, "red")) <$> INTERSECTIONS)
    | Some l => l
    end;
  mqtt_connected :=
    match attr_mqtt_connected s with
    | None => false
    | Some c => c
    end
|}.

(** Streamlit resolves every [st.session_state] through the script-run
    context of the calling thread.  With a context it is the store of the
    session.  Without one (a thread made with [threading.Thread] carries
    none) it is a store that is new and empty at each access: reading an
    attribute raises [AttributeError], and what is written is read by
    nobody. *)
Inductive context := ScriptRun | NoContext.

Definition get_session_state (ctx : context) (s : store) : store :=
  match ctx with
  | ScriptRun => s
  | NoContext => empty_store
  end.

(** Commands over the store of the session. *)
Definition SCmd (A : Type) : Type := store → result A * store.

#[global] Instance scmd_ret : MRet SCmd := λ A a s, (Ok a, s).
#[global] Instance scmd_bind : MBind SCmd :=
  λ A B k m s,
    match m s with
    | (Ok a, s') => k a s'
    | (Raise e, s') => (Raise e, s')
    end.

Definition slift {A} (r : result A) : SCmd A := λ s, (r, s).

(** [st.session_state.<attr>] *)
Definition getattr {A} (ctx : context) (attr : store → option A) : SCmd A :=
  λ s, (match attr (get_session_state ctx s) with
        | Some a => Ok a
        | None => Raise AttributeError
        end, s).

(** An assignment through [st.session_state]: it reaches the store of the
    session only from a thread that has the context. *)
Definition setattr (ctx : context) (update : store → store) : SCmd unit :=
  λ s, (Ok (), match ctx with ScriptRun => update s | NoContext => s end).

Definition with_ambulance (d : gmap string value) (s : store) : store :=
  {| attr_ambulance := Some d; attr_lights := attr_lights s;
     attr_mqtt_connected := attr_mqtt_connected s |}.

Definition with_lights (l : gmap string string) (s : store) : store :=
  {| attr_ambulance := attr_ambulance s; attr_lights := Some l;
     attr_mqtt_connected := attr_mqtt_connected s |}.


(** [st.session_state.lights[k] = v]: the dictionary is fetched, then
    changed in place. *)
Definition setitem_light (ctx : context) (k v : string) : SCmd unit :=
  l ← getattr ctx attr_lights;
  setattr ctx (with_lights (<[k := v]> l)).

Fixpoint for_each_in {A} (body : A → SCmd unit) (xs : list A) : SCmd unit :=
  match xs with
  | [] => mret ()
  | x :: rest => body x ≫= λ _, for_each_in body rest
  end.


(** [on_message], statement by statement, called from a thread with the
    given context. *)
Definition read_update_in (rt : Runtime) (ctx : context) (msg : message)
  : SCmd (float * float * value) :=
  data ← slift (loads_payload msg);
  get ← slift (getattr_get data);
  amb ← getattr ctx attr_ambulance;
  old_lat ← slift (getitem amb "lat");
  lat ← slift (float_ rt (get "lat" old_lat));
  amb ← getattr ctx attr_ambulance;
  old_lng ← slift (getitem amb "lng");
  lng ← slift (float_ rt (get "lng" old_lng));
  let ts := get "time" VNone in
  mret (lat, lng, ts).

Definition update_light_in (rt : Runtime) (ctx : context) (lat lng : float)
    (inter : intersection) : SCmd unit :=
  d ← slift (haversine rt lat lng (inter_lat inter) (inter_lng inter));
  if (d <=? GREEN_DISTANCE_METERS)%float
  then setitem_light ctx (inter_name inter) "green"
  else setitem_light ctx (inter_name inter) "red".

Definition on_message_try_in (rt : Runtime) (ctx : context) (msg : message)
  : SCmd unit :=
  u ← read_update_in rt ctx msg;
  let '(lat, lng, ts) := u in
  setattr ctx
    (with_ambulance {[ "lat" := VFloat lat; "lng" := VFloat lng; "time" := ts ]})
    ≫= λ _,
  for_each_in (update_light_in rt ctx lat lng) INTERSECTIONS.

Definition on_message_in (rt : Runtime) (ctx : context) (msg : message) (s : store)
  : store :=
  (on_message_try_in rt ctx msg s).2.






(** [st.session_state.lights[k]] *)
Definition getitem_light (d : gmap string string) (k : string) : result string :=
  match d !! k with
  | Some v => Ok v
  | None => Raise KeyError
  end.

(** The number an [f"{v:.6f}"] field prints: floats, ints and bools format,
    a string is a [ValueError], anything else a [TypeError]. *)
Definition format_6f (v : value) : result float :=
  match v with
  | VFloat f => Ok f
  | VInt z => float_of_int z
  | VBool b => Ok (if b then 1%float else 0%float)
  | VStr _ => Raise ValueError
  | VNone | VList _ | VDict _ => Raise TypeError
  end.

(** The ambulance marker of the page: the map centre reads [amb["lat"]] and
    [amb["lng"]], the popup formats both and shows [amb["time"]]. *)
Definition ambulance_marker (st : session_state) : result (float * float * value) :=
  let amb := ambulance st in
  c_lat ← getitem amb "lat";
  c_lng ← getitem amb "lng";
  p_lat ← format_6f c_lat;
  p_lng ← format_6f c_lng;
  ts ← getitem amb "time";
  mret (p_lat, p_lng, ts).

(** One circle marker: its colour and the status its tooltip shows. *)
Definition circle_marker (st : session_state) (it : intersection)
  : result (string * string * string) :=
  status ← getitem_light (lights st) (inter_name it);
  let color := if String.eqb status "green" then "green" else "red" in
  shown ← getitem_light (lights st) (inter_name it);
  mret (inter_name it, color, shown).

Fixpoint for_each_result {A B} (f : A → result B) (xs : list A) : result (list B) :=
  match xs with
  | [] => mret []
  | x :: rest => y ← f x; ys ← for_each_result f rest; mret (y :: ys)
  end.

(** The heartbeat indicator at the bottom of the page. *)
Inductive banner := Success | Warning.

Definition heartbeat (st : session_state) : banner :=
  if mqtt_connected st then Success else Warning.

(** One run of the page script over the session: everything it reads. *)
Definition page (st : session_state)
  : result ((float * float * value) * list (string * string * string) * banner) :=
  amb ← ambulance_marker st;
  markers ← for_each_result (circle_marker st) INTERSECTIONS;
  mret (amb, markers, heartbeat st).


(** The assignments the loop of [on_message] performs at a position, up to
    the first exception, with that outcome. *)
Fixpoint loop_writes (rt : Runtime) (lat lng : float) (its : list intersection)
  : result unit * list (string * string) :=
  match its with
  | [] => (Ok (), [])
  | it :: rest =>
      match haversine rt lat lng (inter_lat it) (inter_lng it) with
      | Raise e => (Raise e, [])
      | Ok d =>
          let rw := loop_writes rt lat lng rest in
          (rw.1,
           (inter_name it,
            if (d <=? GREEN_DISTANCE_METERS)%float then "green" else "red")
           :: rw.2)
      end
  end.

Definition apply_writes (ws : list (string * string)) (l : gmap string string)
  : gmap string string :=
  foldl (λ l w, <[w.1 := w.2]> l) l ws.

(** The value the last assignment to [k] gave it, if any. *)
Fixpoint last_write (k : string) (ws : list (string * string)) : option string :=
  match ws with
  | [] => None
  | (k', v) :: rest =>
      match last_write k rest with
      | Some v' => Some v'
      | None => if String.eqb k k' then Some v else None
      end
  end.

(** The shape every session keeps: a position made of two floats and a
    timestamp entry, and one light per intersection, red or green. *)
Definition well_formed (st : session_state) : Prop :=
  (∃ la lo ts, ambulance st !! "lat" = Some (VFloat la) ∧
               ambulance st !! "lng" = Some (VFloat lo) ∧
               ambulance st !! "time" = Some ts) ∧
  dom (lights st) = list_to_set (inter_name <$> INTERSECTIONS) ∧
  ∀ k v, lights st !! k = Some v → v = "red" ∨ v = "green".

(** Assumption on [libm] fixed by C Annex F: [sin] of an infinity is NaN. *)
Definition sin_infinite (rt : Runtime) : Prop :=
  c_sin rt infinity = nan ∧ c_sin rt neg_infinity = nan.


(** The first-order platform with the Annex F values of [sin] at NaN and at
    the infinities. *)
Definition annex_f_runtime : Runtime := {|
  c_sin := λ x, if is_finite x then x else nan;
  c_cos := λ x, if is_finite x then 1%float else nan;
  c_atan2 := λ y x, (y / x)%float;
  c_pow := λ x y, if (y =? 2)%float then (x * x)%float else nan;
  str_to_float := λ s, None
|}.

(** Messages whose latitude is not a number, as [json.loads] reads the
    tokens [NaN] and [Infinity]. *)
Definition nan_latitude : message :=
  json_object [("lat", VFloat nan); ("lng", VFloat 77.5946)].

Definition infinite_latitude : message :=
  json_object [("lat", VFloat infinity); ("lng", VFloat 77.5946)].

(** ** Measured values of the C library *)

(** A function given by a table of values, and by [dflt] elsewhere. *)
Fixpoint tabulated (tbl : list (float * float)) (dflt : float → float)
    (x : float) : float :=
  match tbl with
  | [] => dflt x
  | (k, v) :: rest => if (x =? k)%float then v else tabulated rest dflt x
  end.

Fixpoint tabulated2 (tbl : list (float * float * float))
    (dflt : float → float → float) (y x : float) : float :=
  match tbl with
  | [] => dflt y x
  | (ky, kx, v) :: rest =>
      if ((y =? ky) && (x =? kx))%float then v else tabulated2 rest dflt y x
  end.

(** The values the GNU C library returns for [sin], [cos] and [atan2] at
    the arguments met when the distances from the two positions below to the
    three intersections are computed; each of them is the correctly rounded
    value.  [pow(x, 2)] is the rounded product there.  Elsewhere the
    platform is the first-order one. *)
Definition measured_runtime : Runtime := {|
  c_sin := tabulated
    [ (-1.5696123057597678e-05, -1.5696123056953174e-05);
      (-1.5313757919167854e-11, -1.5313757919167854e-11);
      (1.3974474226298782e-05, 1.3974474225843946e-05);
      (-4.014258810959595e-05, -4.014258809881481e-05);
      (-4.71120495934999e-05, -4.711204957607201e-05);
      (4.712387449004116e-05, 4.712387447260015e-05);
      (-1.3443695269459164, -0.9744747868309641);
      (1.5708364693676924, 0.999999999194287);
      (-1.3443398563486324, -0.9744681254428208);
      (1.5707963267948966, 1);
      (-1.3444009428724524, -0.9744818391304164);
      (1.5708835932574963, 0.9999999961922823) ]%float
    (λ x, x);
  c_cos := tabulated
    [ (0.22642852149781165, 0.9744744003245728);
      (0.22639712925169647, 0.9744814473612341);
      (0.22645647044626424, 0.9744681254428208);
      (0.22633429739862465, 0.9744955491816711);
      (2.915136183143529, -0.9744681254428209) ]%float
    (λ x, if is_finite x then 1%float else nan);
  c_atan2 := tabulated2
    [ (1.569612305696027e-05, 0.9999999998768159, 1.5696123057604773e-05);
      (4.153899482329672e-05, 0.9999999991372559, 4.153899483524256e-05);
      (6.579004542958817e-05, 0.9999999978358349, 6.579004547704835e-05);
      (4.9097416532006336e-05, 0.9999999987947218, 4.909741655173169e-05);
      (0.0001047057493137211, 0.999999994518353, 0.0001047057495050411) ]%float
    (λ y x, (y / x)%float);
  c_pow := λ x y, if (y =? 2)%float then (x * x)%float else nan;
  str_to_float := λ s, None
|}.

(** A position north of Intersection A whose computed distance to it is
    exactly [200.0]; Intersections B and C are about 529 m and 838 m away. *)
Definition at_threshold_of_A : message :=
  json_object [("lat", VFloat 12.973398643211837);
               ("lng", VFloat 77.59460000175483)].

Definition session_at_threshold : session_state :=
  on_message measured_runtime at_threshold_of_A initial_state.

(** A latitude outside [[-90, 90]], which nothing in the callback refuses:
    the point reached over the pole that coincides with Intersection B.
    The distance to Intersection A is computed (about 626 m); for
    Intersection B the rounded value of [a] is [-1.1102230246251565e-16],
    and [math.sqrt(a)] raises. *)
Definition over_the_pole_at_B : message :=
  json_object [("lat", VFloat 167.025); ("lng", VFloat (-102.41))].

(** A session whose last completed update was at Intersection C. *)
Definition session_at_C : session_state := {|
  ambulance := {[ "lat" := VFloat 12.968; "lng" := VFloat 77.6; "time" := VNone ]};
  lights := {[ "Intersection A" := "red"; "Intersection B" := "red";
               "Intersection C" := "green" ]};
  mqtt_connected := false
|}.

(** A session whose vehicle has left the default location. *)
Definition session_moved : session_state :=
  store_position initial_state 12.98 77.61 (VStr "10:15:00").

(** A binary64 number that is zero or finite, with the given sign. *)
Definition finite_signed (s : bool) (x : spec_float) : Prop :=
  match x with
  | S754_zero s' | S754_finite s' _ _ => s' = s
  | _ => False
  end.

(** * IEEE-754 binary64 facts used by the distance computation *)
Module Float64.
Local Open Scope Z_scope.

(** Classification of a binary64 value through its specification. *)
Lemma SFcompare_refl_finite s m e :
  SFcompare (S754_finite s m e) (S754_finite s m e) = Some Eq.
Proof.
  simpl. rewrite Z.compare_refl, Pos.compare_cont_refl.
  destruct s; reflexivity.
Qed.

Lemma is_nan_spec x :
  is_nan x = match Prim2SF x with S754_nan => true | _ => false end.
Proof.
  unfold is_nan. rewrite FloatAxioms.eqb_spec. unfold SFeqb.
  destruct (Prim2SF x) as [s|s| |s m e].
  - reflexivity.
  - destruct s; reflexivity.
  - reflexivity.
  - rewrite SFcompare_refl_finite. reflexivity.
Qed.

Lemma is_infinity_spec x :
  is_infinity x = match Prim2SF x with S754_infinity _ => true | _ => false end.
Proof.
  unfold is_infinity. rewrite FloatAxioms.eqb_spec, abs_spec.
  change (Prim2SF infinity) with (S754_infinity false).
  destruct (Prim2SF x) as [s|s| |s m e]; reflexivity.
Qed.

Lemma is_finite_spec x :
  is_finite x =
  match Prim2SF x with S754_zero _ | S754_finite _ _ _ => true | _ => false end.
Proof.
  unfold is_finite. rewrite is_nan_spec, is_infinity_spec.
  destruct (Prim2SF x); reflexivity.
Qed.

(** [x - x] is [+0] for every finite [x] (round to nearest). *)
Lemma sub_diag x : is_finite x = true -> (x - x)%float = 0%float.
Proof.
  rewrite is_finite_spec. intros Hfin.
  apply Prim2SF_inj. rewrite sub_spec.
  change (Prim2SF 0%float) with (S754_zero false).
  unfold SF64sub.
  destruct (Prim2SF x) as [s|s| |s m e]; try discriminate.
  - destruct s; reflexivity.
  - unfold SFsub. cbv zeta. unfold shl_align. rewrite Z.min_id, Z.sub_diag. simpl fst.
    reflexivity.
Qed.


(** ** Bit lengths *)
Lemma digits2_pos_upper p : Z.pos p < 2 ^ Z.pos (digits2_pos p).
Proof.
  induction p as [p IH|p IH|]; simpl digits2_pos;
    rewrite ?Pos2Z.inj_succ, ?Z.pow_succ_r by lia; lia.
Qed.

Lemma digits2_pos_lower p : 2 ^ (Z.pos (digits2_pos p) - 1) <= Z.pos p.
Proof.
  induction p as [p IH|p IH|]; simpl digits2_pos.
  - rewrite Pos2Z.inj_succ.
    replace (Z.succ (Z.pos (digits2_pos p)) - 1) with (Z.succ (Z.pos (digits2_pos p) - 1)) by lia.
    rewrite Z.pow_succ_r by lia. lia.
  - rewrite Pos2Z.inj_succ.
    replace (Z.succ (Z.pos (digits2_pos p)) - 1) with (Z.succ (Z.pos (digits2_pos p) - 1)) by lia.
    rewrite Z.pow_succ_r by lia. lia.
  - simpl. lia.
Qed.

Lemma Zdigits2_le_of_bound m n : 0 <= n -> 0 <= m <= 2 ^ n -> Zdigits2 m <= n + 1.
Proof.
  intros Hn [Hm0 Hm]. destruct m as [|p|p]; simpl; try lia.
  pose proof (digits2_pos_lower p) as Hl.
  destruct (Z_lt_le_dec (n + 1) (Z.pos (digits2_pos p))) as [Hlt|]; [|lia].
  exfalso.
  assert (2 ^ (n + 1) <= 2 ^ (Z.pos (digits2_pos p) - 1)) by (apply Z.pow_le_mono_r; lia).
  assert (2 ^ n < 2 ^ (n + 1)) by (apply Z.pow_lt_mono_r; lia).
  lia.
Qed.

Lemma digits2_pos_mul p q :
  Z.pos (digits2_pos (p * q)) <= Z.pos (digits2_pos p) + Z.pos (digits2_pos q).
Proof.
  pose proof (digits2_pos_upper p) as Hp.
  pose proof (digits2_pos_upper q) as Hq.
  pose proof (digits2_pos_lower (p * q)) as Hl.
  rewrite Pos2Z.inj_mul in Hl.
  destruct (Z_lt_le_dec (Z.pos (digits2_pos p) + Z.pos (digits2_pos q))
                        (Z.pos (digits2_pos (p * q)))) as [Hlt|]; [|lia].
  exfalso.
  assert (2 ^ (Z.pos (digits2_pos p) + Z.pos (digits2_pos q))
          <= 2 ^ (Z.pos (digits2_pos (p * q)) - 1)) by (apply Z.pow_le_mono_r; lia).
  rewrite Z.pow_add_r in H by lia. nia.
Qed.

(** ** Right shifts of the rounding records *)
Lemma shr_1_m r : 0 <= shr_m r -> shr_m (shr_1 r) = shr_m r / 2.
Proof.
  destruct r as [m r s]. simpl shr_m. intros Hm.
  rewrite <- Z.div2_div.
  destruct m as [|[p|p|]|p]; try reflexivity; lia.
Qed.

Lemma iter_shr_1_m k :
  forall r, 0 <= shr_m r -> shr_m (SpecFloat.iter_pos shr_1 k r) = shr_m r / 2 ^ Z.pos k.
Proof.
  induction k as [k IH|k IH|]; intros r Hr; simpl SpecFloat.iter_pos.
  - assert (H1 : 0 <= shr_m (shr_1 r)) by (rewrite shr_1_m by assumption; apply Z.div_pos; lia).
    assert (H2 : 0 <= shr_m (SpecFloat.iter_pos shr_1 k (shr_1 r)))
      by (rewrite IH by assumption; apply Z.div_pos; [assumption | apply Z.pow_pos_nonneg; lia]).
    rewrite IH, IH, shr_1_m by assumption.
    assert (Hp : 0 < 2 ^ Z.pos k) by (apply Z.pow_pos_nonneg; lia).
    rewrite !Z.div_div by lia.
    f_equal. replace (Z.pos k~1) with (1 + Z.pos k + Z.pos k) by lia.
    rewrite !Z.pow_add_r by lia. change (2 ^ 1) with 2. ring.
  - assert (H2 : 0 <= shr_m (SpecFloat.iter_pos shr_1 k r))
      by (rewrite IH by assumption; apply Z.div_pos; [assumption | apply Z.pow_pos_nonneg; lia]).
    rewrite IH, IH by assumption.
    assert (Hp : 0 < 2 ^ Z.pos k) by (apply Z.pow_pos_nonneg; lia).
    rewrite Z.div_div by lia.
    f_equal. replace (Z.pos k~0) with (Z.pos k + Z.pos k) by lia.
    rewrite Z.pow_add_r by lia. reflexivity.
  - rewrite shr_1_m by assumption. reflexivity.
Qed.

Lemma round_nearest_even_bounds m l :
  m <= round_nearest_even m l <= m + 1.
Proof.
  destruct l as [|[ | | ]]; simpl; try lia.
  destruct (Z.even m); lia.
Qed.


(** ** Rounding a small enough product never overflows *)
Lemma binary_round_aux_finite s p e :
  e <= 971 -> Z.pos (digits2_pos p) + e <= 1023 ->
  finite_signed s (binary_round_aux prec emax s (Z.pos p) e loc_Exact).
Proof.
  intros He Hd.
  unfold binary_round_aux, shr_fexp.
  simpl Zdigits2. simpl shr_record_of_loc.
  pose proof (digits2_pos_upper p) as Hup.
  set (d := Z.pos (digits2_pos p)) in *.
  assert (Hf1 : fexp prec emax (d + e) = Z.max (d + e - 53) (-1074)) by reflexivity.
  destruct (fexp prec emax (d + e) - e) as [|k|k] eqn:Hn.
  - cbn [shr shr_m loc_of_shr_record round_nearest_even Zdigits2 shr_record_of_loc].
    fold d. rewrite Hn. cbn [shr shr_m].
    replace (e <=? emax - prec) with true
      by (symmetry; apply Z.leb_le; unfold emax, prec; lia).
    exact eq_refl.
  - cbn [shr].
    set (r1 := SpecFloat.iter_pos shr_1 k {| shr_m := Z.pos p; shr_r := false; shr_s := false |}).
    assert (Hm1 : shr_m r1 = Z.pos p / 2 ^ Z.pos k)
      by (unfold r1; rewrite iter_shr_1_m; simpl; [reflexivity | lia]).
    assert (Hk : 0 < 2 ^ Z.pos k) by (apply Z.pow_pos_nonneg; lia).
    assert (Hb1 : 0 <= shr_m r1 < 2 ^ 53).
    { rewrite Hm1. split; [apply Z.div_pos; lia|].
      apply Z.div_lt_upper_bound; [lia|].
      rewrite <- Z.pow_add_r by lia.
      assert (2 ^ d <= 2 ^ (Z.pos k + 53)) by (apply Z.pow_le_mono_r; lia).
      lia. }
    pose proof (round_nearest_even_bounds (shr_m r1) (loc_of_shr_record r1)) as Hrn.
    set (m1 := round_nearest_even (shr_m r1) (loc_of_shr_record r1)) in *.
    assert (Hd1 : Zdigits2 m1 <= 54) by (apply (Zdigits2_le_of_bound m1 53); lia).
    assert (Hd0 : 0 <= Zdigits2 m1) by (destruct m1; simpl; lia).
    assert (Hf2 : fexp prec emax (Zdigits2 m1 + (e + Z.pos k))
                  = Z.max (Zdigits2 m1 + (e + Z.pos k) - 53) (-1074)) by reflexivity.
    destruct (fexp prec emax (Zdigits2 m1 + (e + Z.pos k)) - (e + Z.pos k)) as [|k2|k2] eqn:Hn2;
      cbn [shr].
    + simpl shr_m. destruct m1 as [|q|q]; [exact eq_refl| |lia].
      replace (e + Z.pos k <=? emax - prec) with true
        by (symmetry; apply Z.leb_le; unfold emax, prec; lia).
      exact eq_refl.
    + set (r2 := SpecFloat.iter_pos shr_1 k2 _).
      assert (Hm2 : 0 <= shr_m r2).
      { unfold r2. rewrite iter_shr_1_m by (simpl; lia).
        apply Z.div_pos; [simpl; lia | apply Z.pow_pos_nonneg; lia]. }
      destruct (shr_m r2) as [|q|q]; [exact eq_refl| |lia].
      replace (e + Z.pos k + Z.pos k2 <=? emax - prec) with true
        by (symmetry; apply Z.leb_le; unfold emax, prec; lia).
      exact eq_refl.
    + simpl shr_m. destruct m1 as [|q|q]; [exact eq_refl| |lia].
      replace (e + Z.pos k <=? emax - prec) with true
        by (symmetry; apply Z.leb_le; unfold emax, prec; lia).
      exact eq_refl.
  - cbn [shr shr_m loc_of_shr_record round_nearest_even Zdigits2 shr_record_of_loc].
    fold d. rewrite Hn. cbn [shr shr_m].
    replace (e <=? emax - prec) with true
      by (symmetry; apply Z.leb_le; unfold emax, prec; lia).
    exact eq_refl.
Qed.

(** A valid binary64 mantissa has at most 53 bits and exponent at most 971. *)
Lemma valid_finite_bounds s m e :
  valid_binary (S754_finite s m e) = true ->
  Z.pos (digits2_pos m) <= 53 /\ e <= 971.
Proof.
  simpl. unfold bounded, canonical_mantissa.
  intros H. apply andb_true_iff in H as [Hc He].
  apply Z.eqb_eq in Hc. apply Z.leb_le in He.
  change (fexp prec emax (Z.pos (digits2_pos m) + e))
    with (Z.max (Z.pos (digits2_pos m) + e - 53) (-1074)) in Hc.
  change (emax - prec) with 971 in He. lia.
Qed.

Lemma SFmul_finite sx mx ex sy my ey :
  Z.pos (digits2_pos mx) <= 53 -> Z.pos (digits2_pos my) <= 53 ->
  ex + ey <= 917 ->
  finite_signed (xorb sx sy)
    (SF64mul (S754_finite sx mx ex) (S754_finite sy my ey)).
Proof.
  intros Hx Hy He. unfold SF64mul, SFmul.
  pose proof (digits2_pos_mul mx my).
  apply binary_round_aux_finite; lia.
Qed.


(** ** Sign symmetry of the rounded operations *)
Lemma binary_round_aux_opp s m e l :
  binary_round_aux prec emax (negb s) m e l
  = SFopp (binary_round_aux prec emax s m e l).
Proof.
  unfold binary_round_aux.
  destruct (shr_fexp prec emax m e l) as [r1 e1].
  destruct (shr_fexp prec emax _ e1 loc_Exact) as [r2 e2].
  destruct (shr_m r2); try reflexivity.
  destruct (e2 <=? emax - prec); reflexivity.
Qed.

Lemma binary_round_opp s m e :
  binary_round prec emax (negb s) m e = SFopp (binary_round prec emax s m e).
Proof.
  unfold binary_round.
  destruct (shl_align m e _) as [mz ez]. apply binary_round_aux_opp.
Qed.

Lemma SFmul_opp_l x y : SF64mul (SFopp x) y = SFopp (SF64mul x y).
Proof.
  unfold SF64mul.
  destruct x as [sx|sx| |sx mx ex], y as [sy|sy| |sy my ey]; simpl;
    try reflexivity; try (destruct sx, sy; reflexivity).
  rewrite <- binary_round_aux_opp. destruct sx, sy; reflexivity.
Qed.

Lemma SFdiv_opp_l x y : SF64div (SFopp x) y = SFopp (SF64div x y).
Proof.
  unfold SF64div.
  destruct x as [sx|sx| |sx mx ex], y as [sy|sy| |sy my ey]; simpl;
    try reflexivity; try (destruct sx, sy; reflexivity).
  destruct (SFdiv_core_binary prec emax (Z.pos mx) ex (Z.pos my) ey) as [[mz ez] lz].
  rewrite <- binary_round_aux_opp. destruct sx, sy; reflexivity.
Qed.

Lemma SFmul_comm x y : SF64mul x y = SF64mul y x.
Proof.
  unfold SF64mul.
  destruct x as [sx|sx| |sx mx ex], y as [sy|sy| |sy my ey]; simpl;
    rewrite ?(xorb_comm sx sy); try reflexivity.
  rewrite (Pos.mul_comm mx my), (Z.add_comm ex ey). reflexivity.
Qed.

Lemma SFsub_swap x y :
  SF64sub y x = SFopp (SF64sub x y) \/ SF64sub y x = SF64sub x y.
Proof.
  unfold SF64sub.
  destruct x as [sx|sx| |sx mx ex], y as [sy|sy| |sy my ey];
    try (destruct sx, sy; simpl; auto; fail);
    try (simpl; auto; fail);
    try (destruct sx; simpl; auto; fail);
    try (destruct sy; simpl; rewrite ?negb_involutive; auto; fail).
  unfold SFsub. cbv zeta. rewrite (Z.min_comm ey ex).
  set (a := cond_Zopp sx _). set (b := cond_Zopp sy _).
  replace (b - a) with (- (a - b)) by ring.
  destruct (a - b) as [|p|p]; simpl.
  - right. reflexivity.
  - left. apply (binary_round_opp false).
  - left. rewrite <- (binary_round_opp true). reflexivity.
Qed.

(** ** The same facts on primitive floats *)
Lemma mul_comm x y : (x * y = y * x)%float.
Proof. apply Prim2SF_inj. rewrite !mul_spec. apply SFmul_comm. Qed.

Lemma mul_opp_l x y : (- x * y = - (x * y))%float.
Proof. apply Prim2SF_inj. rewrite opp_spec, !mul_spec, opp_spec. apply SFmul_opp_l. Qed.

Lemma div_opp_l x y : (- x / y = - (x / y))%float.
Proof. apply Prim2SF_inj. rewrite opp_spec, !div_spec, opp_spec. apply SFdiv_opp_l. Qed.

Lemma sub_swap x y : ((y - x = - (x - y)) \/ (y - x = x - y))%float.
Proof.
  destruct (SFsub_swap (Prim2SF x) (Prim2SF y)) as [H|H]; [left|right];
    apply Prim2SF_inj; rewrite ?opp_spec, !sub_spec; exact H.
Qed.

Lemma opp_involutive x : (- - x = x)%float.
Proof.
  apply Prim2SF_inj. rewrite !opp_spec.
  destruct (Prim2SF x) as [s|s| |s m e]; simpl; rewrite ?negb_involutive; reflexivity.
Qed.

Lemma is_nan_opp x : is_nan (- x) = is_nan x.
Proof. rewrite !is_nan_spec, opp_spec. destruct (Prim2SF x); reflexivity. Qed.

Lemma is_infinity_opp x : is_infinity (- x) = is_infinity x.
Proof. rewrite !is_infinity_spec, opp_spec. destruct (Prim2SF x); reflexivity. Qed.

Lemma is_finite_opp x : is_finite (- x) = is_finite x.
Proof. unfold is_finite. rewrite is_nan_opp, is_infinity_opp. reflexivity. Qed.

Lemma abs_opp x : abs (- x) = abs x.
Proof.
  apply Prim2SF_inj. rewrite !abs_spec, opp_spec.
  destruct (Prim2SF x); reflexivity.
Qed.

Lemma is_nan_eq x : is_nan x = true -> x = nan.
Proof.
  rewrite is_nan_spec. intros H. apply Prim2SF_inj.
  change (Prim2SF nan) with S754_nan.
  destruct (Prim2SF x); try discriminate. reflexivity.
Qed.

Lemma eqb_zero_opp x : (- x =? 0)%float = (x =? 0)%float.
Proof.
  rewrite !FloatAxioms.eqb_spec, opp_spec.
  change (Prim2SF 0) with (S754_zero false).
  destruct (Prim2SF x) as [s|s| |s m e]; try reflexivity; destruct s; reflexivity.
Qed.

(** The magnitude taken by a sign test, as [float_pow] does it. *)
Lemma magnitude_opp x :
  is_nan x = false ->
  (if (- x <? 0)%float then (- - x)%float else (- x)%float)
  = (if (x <? 0)%float then (- x)%float else x) \/ (x =? 0)%float = true.
Proof.
  rewrite is_nan_spec, !ltb_spec, FloatAxioms.eqb_spec, opp_spec.
  change (Prim2SF 0) with (S754_zero false).
  rewrite opp_involutive.
  destruct (Prim2SF x) as [s|s| |s m e] eqn:E; intros Hn; try discriminate.
  - right. reflexivity.
  - left. destruct s; reflexivity.
  - left. destruct s; reflexivity.
Qed.


(** ** Finiteness of the products met in the distance computation *)
(** Scaling a finite number by a constant below [2^-1] stays finite. *)
Lemma mul_small_finite x c sc mc ec :
  Prim2SF c = S754_finite sc mc ec -> ec <= -54 ->
  is_finite x = true -> is_finite (x * c) = true.
Proof.
  intros Hc Hec. rewrite !is_finite_spec, mul_spec, Hc.
  pose proof (Prim2SF_valid x) as Hvx. pose proof (Prim2SF_valid c) as Hvc.
  rewrite Hc in Hvc. apply valid_finite_bounds in Hvc as [Hdc _].
  destruct (Prim2SF x) as [s|s| |s m e]; try discriminate; intros _.
  - reflexivity.
  - apply valid_finite_bounds in Hvx as [Hdx Hex].
    pose proof (SFmul_finite s m e sc mc ec Hdx Hdc ltac:(lia)) as H.
    destruct (SF64mul _ _); simpl in H; tauto.
Qed.

(** A number of magnitude at most one has a finite, non-negative square. *)
Lemma square_le_one_finite c :
  (abs c <=? 1)%float = true -> finite_signed false (Prim2SF (c * c)).
Proof.
  rewrite leb_spec, abs_spec, mul_spec.
  change (Prim2SF 1) with (S754_finite false 4503599627370496 (-52)).
  pose proof (Prim2SF_valid c) as Hv.
  destruct (Prim2SF c) as [s|s| |s m e]; try discriminate.
  - intros _. simpl. apply xorb_nilpotent.
  - apply valid_finite_bounds in Hv as [Hd _].
    unfold SFabs, SFleb, SFcompare. intros Hle.
    assert (He : e <= -52).
    { revert Hle. destruct (Z.compare_spec e (-52)); intros Hle; [lia | lia | discriminate]. }
    rewrite <- (xorb_nilpotent s).
    apply SFmul_finite; lia.
Qed.

Lemma mul_zero_r_nonneg y :
  finite_signed false (Prim2SF y) -> (y * 0)%float = 0%float.
Proof.
  intros H. apply Prim2SF_inj. rewrite mul_spec.
  change (Prim2SF 0) with (S754_zero false).
  destruct (Prim2SF y) as [s|s| |s m e]; simpl in H; try tauto; subst s; reflexivity.
Qed.

Lemma square_le_one_mul_zero c :
  (abs c <=? 1)%float = true -> (c * c * 0)%float = 0%float.
Proof. intros H. apply mul_zero_r_nonneg, square_le_one_finite, H. Qed.

(** ** Order *)
Lemma SFcompare_swap x y :
  SFcompare y x = option_map CompOpp (SFcompare x y).
Proof.
  destruct x as [sx|sx| |sx mx ex], y as [sy|sy| |sy my ey];
    try reflexivity;
    try (destruct sx, sy; reflexivity);
    try (destruct sx; reflexivity);
    try (destruct sy; reflexivity).
  unfold SFcompare, option_map. f_equal.
  rewrite (Z.compare_antisym ex ey).
  destruct sx, sy; try reflexivity; destruct (ex ?= ey); try reflexivity;
    unfold CompOpp at 1; cbv iota;
    rewrite ?Pos.compare_cont_antisym; reflexivity.
Qed.

Lemma ltb_not_leb x y : (x <? y)%float = true -> (y <=? x)%float = false.
Proof.
  rewrite ltb_spec, leb_spec. unfold SFltb, SFleb.
  rewrite (SFcompare_swap (Prim2SF x) (Prim2SF y)).
  destruct (SFcompare (Prim2SF x) (Prim2SF y)) as [[]|]; simpl; congruence.
Qed.

End Float64.

(** * The distance function *)

Lemma result_bind_ok {A B} (a : A) (k : A → result B) : (Ok a ≫= k) = k a.
Proof. reflexivity. Qed.

Lemma result_bind_raise {A B} (e : exn) (k : A → result B) :
  (Raise e ≫= k) = Raise e.
Proof. reflexivity. Qed.

Section Distance.
Context (rt : Runtime).
Local Open Scope float_scope.

(** A one-argument [math] function that does not overflow only ever raises
    [ValueError]. *)
Lemma math_1_raise func x e : math_1 func false x = Raise e → e = ValueError.
Proof.
  unfold math_1.
  destruct (is_nan (func x) && negb (is_nan x)); [congruence|].
  destruct (is_infinity (func x) && is_finite x); congruence.
Qed.

Lemma math_1_opp func x :
  func (- x) = - func x →
  math_1 func false (- x)
  = match math_1 func false x with Ok r => Ok (- r) | Raise e => Raise e end.
Proof.
  intros Hodd. unfold math_1. rewrite Hodd.
  rewrite !Float64.is_nan_opp, Float64.is_infinity_opp, Float64.is_finite_opp.
  destruct (is_nan (func x) && negb (is_nan x)); [reflexivity|].
  destruct (is_infinity (func x) && is_finite x); reflexivity.
Qed.

Lemma le_one_not_special r :
  (abs r <=? 1) = true → is_nan r = false ∧ is_infinity r = false.
Proof.
  rewrite leb_spec, abs_spec, Float64.is_nan_spec, Float64.is_infinity_spec.
  destruct (Prim2SF r) as [s|s| |s m e]; intros H; try discriminate; auto.
Qed.

Lemma math_cos_finite x :
  cos_bounded rt → is_finite x = true → math_cos rt x = Ok (c_cos rt x).
Proof.
  intros Hcos Hx. unfold math_cos, math_1.
  destruct (le_one_not_special _ (Hcos x Hx)) as [-> ->]. reflexivity.
Qed.

Lemma math_sin_zero : sin_zero rt → math_sin rt 0 = Ok 0.
Proof. intros H. unfold math_sin, math_1. rewrite H. reflexivity. Qed.

Lemma math_radians_finite x :
  is_finite x = true → is_finite (math_radians x) = true.
Proof.
  apply (Float64.mul_small_finite x degToRad false 5030569068109113 (-58));
    [reflexivity | lia].
Qed.

Lemma math_radians_opp x : math_radians (- x) = - math_radians x.
Proof. apply Float64.mul_opp_l. Qed.

(** [x ** 2] does not see the sign of [x]. *)
Lemma float_pow_2_opp x : float_pow_2 rt (- x) = float_pow_2 rt x.
Proof.
  unfold float_pow_2.
  rewrite Float64.is_nan_opp, Float64.is_infinity_opp, Float64.abs_opp,
    Float64.eqb_zero_opp.
  destruct (is_nan x) eqn:Hnan.
  { rewrite (Float64.is_nan_eq x Hnan). reflexivity. }
  destruct (is_infinity x); [reflexivity|].
  destruct (x =? 0) eqn:Hz; [reflexivity|].
  destruct (Float64.magnitude_opp x Hnan) as [-> | Hz']; [reflexivity | congruence].
Qed.

Lemma half_chord_opp d : sin_odd rt → half_chord rt (- d) = half_chord rt d.
Proof.
  intros Hodd. unfold half_chord, math_sin.
  rewrite math_radians_opp, Float64.div_opp_l, (math_1_opp _ _ (Hodd _)).
  destruct (math_1 (c_sin rt) false (math_radians d / 2)) as [r|e];
    [|reflexivity].
  rewrite !result_bind_ok. apply float_pow_2_opp.
Qed.

Lemma half_chord_swap x y : sin_odd rt → half_chord rt (y - x) = half_chord rt (x - y).
Proof.
  intros Hodd. destruct (Float64.sub_swap x y) as [-> | ->];
    [apply half_chord_opp, Hodd | reflexivity].
Qed.

Lemma half_chord_zero : sin_zero rt → half_chord rt 0 = Ok 0.
Proof.
  intros H. unfold half_chord.
  change (math_radians 0 / 2) with 0.
  rewrite (math_sin_zero H). reflexivity.
Qed.

Lemma haversine_half_chords lat1 lon1 lat2 lon2 :
  haversine rt lat1 lon1 lat2 lon2 =
  (p1 ← half_chord rt (lat2 - lat1);
   c1 ← math_cos rt (math_radians lat1);
   c2 ← math_cos rt (math_radians lat2);
   p2 ← half_chord rt (lon2 - lon1);
   central_angle rt (p1 + c1 * c2 * p2)).
Proof.
  unfold haversine, half_chord, central_angle.
  destruct (math_sin rt (math_radians (lat2 - lat1) / 2)) as [s1|e]; [|reflexivity].
  rewrite !result_bind_ok.
  destruct (float_pow_2 rt s1) as [p1|e]; [|reflexivity].
  rewrite !result_bind_ok.
  destruct (math_cos rt (math_radians lat1)) as [c1|e]; [|reflexivity].
  rewrite !result_bind_ok.
  destruct (math_cos rt (math_radians lat2)) as [c2|e]; [|reflexivity].
  rewrite !result_bind_ok.
  destruct (math_sin rt (math_radians (lon2 - lon1) / 2)) as [s2|e]; [|reflexivity].
  rewrite !result_bind_ok.
  destruct (float_pow_2 rt s2) as [p2|e]; reflexivity.
Qed.
End Distance.

(** The first-order platform meets every assumption made on [libm]. *)
Lemma small_angle_sin_zero : sin_zero small_angle_runtime.
Proof. reflexivity. Qed.

Lemma small_angle_sin_nan : sin_nan small_angle_runtime.
Proof. reflexivity. Qed.

Lemma small_angle_sin_odd : sin_odd small_angle_runtime.
Proof. intros x. reflexivity. Qed.

Lemma small_angle_cos_bounded : cos_bounded small_angle_runtime.
Proof. intros x Hx. simpl. rewrite Hx. reflexivity. Qed.

Lemma add_nan_l x : (nan + x)%float = nan.
Proof. apply Prim2SF_inj. rewrite add_spec. reflexivity. Qed.

Lemma Ok_nan_not_zero : Ok nan ≠ Ok 0%float.
Proof.
  intros H.
  apply (f_equal (λ r, match r with Ok x => is_nan x | Raise _ => false end)) in H.
  vm_compute in H. discriminate H.
Qed.

(** A NaN latitude never gives distance [0], whatever the platform computes
    elsewhere: the result is NaN, or an exception from the longitude term. *)
Lemma haversine_nan_latitude rt lon :
  sin_nan rt → haversine rt nan lon nan lon ≠ Ok 0%float.
Proof.
  intros Hnan. rewrite haversine_half_chords.
  assert (Hp1 : half_chord rt (nan - nan) = Ok nan).
  { unfold half_chord, math_sin, math_1.
    change (math_radians (nan - nan) / 2)%float with nan.
    rewrite Hnan. reflexivity. }
  rewrite Hp1, result_bind_ok.
  assert (Hc : math_cos rt (math_radians nan) = Ok (c_cos rt nan)).
  { unfold math_cos, math_1. change (math_radians nan) with nan.
    change (is_nan nan) with true. change (is_finite nan) with false.
    rewrite !andb_false_r. reflexivity. }
  rewrite Hc, !result_bind_ok.
  destruct (half_chord rt (lon - lon)) as [p2|e]; [|discriminate].
  rewrite result_bind_ok, add_nan_l.
  exact Ok_nan_not_zero.
Qed.

(** C6, as stated, fails: it quantifies over every pair of floats, and a
    pair whose latitude is NaN (which [json.loads] and [float] both produce)
    is at distance NaN from itself, not [0]. *)
Lemma haversine_coincident_nan_counterexample :
  ¬ (∀ rt, sin_zero rt → cos_bounded rt →
       ∀ lat lon : float, haversine rt lat lon lat lon = Ok 0%float).
Proof.
  intros H.
  apply (haversine_nan_latitude small_angle_runtime 0%float small_angle_sin_nan).
  apply H; [exact small_angle_sin_zero | exact small_angle_cos_bounded].
Qed.

(** At a finite point seen from itself both half-chord terms vanish, and
    [a] is exactly [0]. *)
Lemma haversine_coincident_a rt lat lon :
  sin_zero rt → cos_bounded rt →
  is_finite lat = true → is_finite lon = true →
  haversine rt lat lon lat lon = central_angle rt 0%float.
Proof.
  intros Hsin Hcos Hlat Hlon.
  rewrite haversine_half_chords, !Float64.sub_diag by assumption.
  rewrite (half_chord_zero rt Hsin), !result_bind_ok.
  rewrite (math_cos_finite rt _ Hcos (math_radians_finite _ Hlat)), !result_bind_ok.
  rewrite (Float64.square_le_one_mul_zero _ (Hcos _ (math_radians_finite _ Hlat))).
  reflexivity.
Qed.

(** C6 (amended): for every coordinate pair [p] of finite floats,
    [haversine] applied to [p] and [p] itself returns exactly [0.0], on a
    platform whose [sin] maps [0] to [0] and whose [cos] stays within
    [[-1, 1]]. *)
Theorem haversine_coincident rt lat lon :
  sin_zero rt → cos_bounded rt →
  is_finite lat = true → is_finite lon = true →
  haversine rt lat lon lat lon = Ok 0%float.
Proof.
  intros Hsin Hcos Hlat Hlon.
  rewrite (haversine_coincident_a rt lat lon Hsin Hcos Hlat Hlon).
  unfold central_angle.
  change (math_sqrt 0) with (Ok 0%float). rewrite result_bind_ok.
  change (math_sqrt (1 - 0)) with (Ok 1%float). rewrite result_bind_ok.
  change (math_atan2 rt 0 1) with (Ok 0%float). rewrite result_bind_ok.
  reflexivity.
Qed.

Lemma haversine_coincident_witness :
  haversine small_angle_runtime 12.9716 77.5946 12.9716 77.5946 = Ok 0%float.
Proof.
  apply haversine_coincident;
    [exact small_angle_sin_zero | exact small_angle_cos_bounded
    | reflexivity | reflexivity].
Defined.

(** C7: for every two coordinate pairs [a] and [b], [haversine a b] and
    [haversine b a] have the same outcome (the same float, or the same
    exception), on a platform whose [sin] is odd. *)
Theorem haversine_symmetric rt lat1 lon1 lat2 lon2 :
  sin_odd rt →
  haversine rt lat1 lon1 lat2 lon2 = haversine rt lat2 lon2 lat1 lon1.
Proof.
  intros Hodd. rewrite !haversine_half_chords.
  rewrite (half_chord_swap rt lat2 lat1 Hodd), (half_chord_swap rt lon2 lon1 Hodd).
  destruct (half_chord rt (lat2 - lat1)) as [p1|e]; [|reflexivity].
  rewrite !result_bind_ok.
  destruct (math_cos rt (math_radians lat1)) as [c1|e1] eqn:H1,
           (math_cos rt (math_radians lat2)) as [c2|e2] eqn:H2;
    rewrite ?result_bind_ok, ?result_bind_raise; try reflexivity.
  - rewrite (Float64.mul_comm c1 c2). reflexivity.
  - apply math_1_raise in H1, H2. congruence.
Qed.

Lemma haversine_symmetric_witness :
  haversine small_angle_runtime 12.98 77.605 12.9716 77.5946
  = haversine small_angle_runtime 12.9716 77.5946 12.98 77.605.
Proof. apply haversine_symmetric. exact small_angle_sin_odd. Defined.

(** * The callback *)

Section CallbackFacts.
Context (rt : Runtime).

Lemma read_update_pure msg st :
  read_update rt msg st = (parse_update rt st msg, st).
Proof.
  unfold parse_update, read_update, mbind, cmd_bind, lift, read_ambulance.
  destruct (loads_payload msg) as [data|e]; [|reflexivity].
  destruct (getattr_get data) as [get|e]; [|reflexivity].
  destruct (getitem (ambulance st) "lat") as [old_lat|e]; [|reflexivity].
  destruct (float_ rt (get "lat" old_lat)) as [lat|e]; [|reflexivity].
  destruct (getitem (ambulance st) "lng") as [old_lng|e]; [|reflexivity].
  destruct (float_ rt (get "lng" old_lng)) as [lng|e]; reflexivity.
Qed.

Lemma parse_update_object kvs st :
  parse_update rt st (json_object kvs) =
  (old_lat ← getitem (ambulance st) "lat";
   lat ← float_ rt (default old_lat (dict_lookup "lat" kvs));
   old_lng ← getitem (ambulance st) "lng";
   lng ← float_ rt (default old_lng (dict_lookup "lng" kvs));
   mret (lat, lng, default VNone (dict_lookup "time" kvs))).
Proof.
  unfold parse_update, read_update, mbind, cmd_bind, result_bind, lift,
    read_ambulance. simpl.
  destruct (getitem (ambulance st) "lat") as [old_lat|e]; [|reflexivity].
  destruct (float_ rt (default old_lat (dict_lookup "lat" kvs))) as [lat|e];
    [|reflexivity].
  destruct (getitem (ambulance st) "lng") as [old_lng|e]; [|reflexivity].
  destruct (float_ rt (default old_lng (dict_lookup "lng" kvs))) as [lng|e];
    reflexivity.
Qed.

Lemma on_message_try_unfold msg st :
  on_message_try rt msg st =
  match parse_update rt st msg with
  | Ok (lat, lng, ts) =>
      for_each (update_light rt lat lng) INTERSECTIONS (store_position st lat lng ts)
  | Raise e => (Raise e, st)
  end.
Proof.
  unfold on_message_try. unfold mbind at 1. unfold cmd_bind at 1.
  rewrite read_update_pure.
  destruct (parse_update rt st msg) as [[[lat lng] ts]|e]; reflexivity.
Qed.

Lemma update_light_unfold lat lng inter st :
  update_light rt lat lng inter st =
  match haversine rt lat lng (inter_lat inter) (inter_lng inter) with
  | Ok d =>
      (Ok (),
       {| ambulance := ambulance st;
          lights := <[inter_name inter :=
                       if (d <=? GREEN_DISTANCE_METERS)%float
                       then "green" else "red"]> (lights st);
          mqtt_connected := mqtt_connected st |})
  | Raise e => (Raise e, st)
  end.
Proof.
  unfold update_light, mbind, cmd_bind, lift.
  destruct (haversine rt lat lng (inter_lat inter) (inter_lng inter)) as [d|e];
    [|reflexivity].
  destruct (d <=? GREEN_DISTANCE_METERS)%float; reflexivity.
Qed.

(** The loop never touches the stored position, whether it completes or
    raises, and leaves alone the lights of the names it does not visit. *)
Lemma for_each_frame lat lng its : ∀ st r st',
  for_each (update_light rt lat lng) its st = (r, st') →
  ambulance st' = ambulance st ∧ mqtt_connected st' = mqtt_connected st ∧
  ∀ k, k ∉ inter_name <$> its → lights st' !! k = lights st !! k.
Proof.
  induction its as [|inter rest IH]; intros st r st' Hrun.
  - injection Hrun as <- <-. auto.
  - simpl in Hrun. unfold mbind, cmd_bind in Hrun.
    rewrite update_light_unfold in Hrun.
    destruct (haversine rt lat lng (inter_lat inter) (inter_lng inter)) as [d|e].
    + apply IH in Hrun as (Ha & Hc & Hl). simpl in *.
      split; [assumption|]. split; [assumption|].
      intros k Hk. rewrite not_elem_of_cons in Hk. destruct Hk as [Hne Hk].
      rewrite (Hl k Hk). apply lookup_insert_ne. congruence.
    + injection Hrun as <- <-. auto.
Qed.

(** A loop that completes has given every visited site the light its
    distance asks for. *)
Lemma for_each_lights lat lng its : ∀ st st',
  NoDup (inter_name <$> its) →
  for_each (update_light rt lat lng) its st = (Ok (), st') →
  ∀ inter, inter ∈ its →
    ∃ d, haversine rt lat lng (inter_lat inter) (inter_lng inter) = Ok d ∧
         lights st' !! inter_name inter =
         Some (if (d <=? GREEN_DISTANCE_METERS)%float then "green" else "red").
Proof.
  induction its as [|i0 rest IH]; intros st st' Hnd Hrun inter Hin.
  - inversion Hin.
  - simpl in Hrun. unfold mbind, cmd_bind in Hrun.
    rewrite update_light_unfold in Hrun.
    rewrite fmap_cons in Hnd. apply NoDup_cons in Hnd as [Hfresh Hnd].
    destruct (haversine rt lat lng (inter_lat i0) (inter_lng i0)) as [d|e] eqn:Hd;
      [|discriminate].
    apply elem_of_cons in Hin as [-> | Hin].
    + exists d. split; [assumption|].
      destruct (for_each_frame _ _ _ _ _ _ Hrun) as (_ & _ & Hl).
      rewrite (Hl _ Hfresh). simpl. apply lookup_insert_eq.
    + exact (IH _ _ Hnd Hrun inter Hin).
Qed.

Lemma INTERSECTIONS_names_NoDup : NoDup (inter_name <$> INTERSECTIONS).
Proof. apply (bool_decide_unpack _). vm_compute. exact I. Qed.

(** Whatever happens, [on_message] leaves the session either untouched or
    with the parsed position stored. *)
Lemma on_message_ambulance msg st :
  match parse_update rt st msg with
  | Ok (lat, lng, ts) =>
      ambulance (on_message rt msg st) = ambulance (store_position st lat lng ts)
  | Raise _ => on_message rt msg st = st
  end.
Proof.
  unfold on_message. rewrite on_message_try_unfold.
  destruct (parse_update rt st msg) as [[[lat lng] ts]|e]; [|reflexivity].
  destruct (for_each _ _ _) as [r st'] eqn:Hrun.
  apply for_each_frame in Hrun as (Ha & _). exact Ha.
Qed.

(** A message processed to completion: position stored, every light set
    from its own distance. *)
Lemma on_message_complete msg st st' :
  on_message_try rt msg st = (Ok (), st') →
  ∃ lat lng ts,
    parse_update rt st msg = Ok (lat, lng, ts) ∧
    ambulance st' = {[ "lat" := VFloat lat; "lng" := VFloat lng; "time" := ts ]} ∧
    ∀ inter, inter ∈ INTERSECTIONS →
      ∃ d, haversine rt lat lng (inter_lat inter) (inter_lng inter) = Ok d ∧
           lights st' !! inter_name inter =
           Some (if (d <=? GREEN_DISTANCE_METERS)%float then "green" else "red").
Proof.
  rewrite on_message_try_unfold.
  destruct (parse_update rt st msg) as [[[lat lng] ts]|e]; [|discriminate].
  intros Hrun. exists lat, lng, ts. split; [reflexivity|]. split.
  - apply for_each_frame in Hrun as (Ha & _). exact Ha.
  - exact (for_each_lights _ _ _ _ _ INTERSECTIONS_names_NoDup Hrun).
Qed.
End CallbackFacts.

(** * Dropped messages *)

Lemma malformed_parse_update rt st msg :
  malformed rt msg → ∃ e, parse_update rt st msg = Raise e.
Proof.
  destruct msg as [payload]. intros [e H|kvs v e H Hk Hf|kvs v e H Hk Hf];
    simpl in H; subst payload.
  - exists e. reflexivity.
  - change {| loads_payload := Ok (VDict kvs) |} with (json_object kvs).
    rewrite parse_update_object, Hk. simpl.
    destruct (getitem (ambulance st) "lat") as [old|e']; [|by eexists].
    rewrite result_bind_ok, Hf. by eexists.
  - change {| loads_payload := Ok (VDict kvs) |} with (json_object kvs).
    rewrite parse_update_object, Hk. simpl.
    destruct (getitem (ambulance st) "lat") as [old|e']; [|by eexists].
    rewrite result_bind_ok.
    destruct (float_ rt (default old (dict_lookup "lat" kvs))) as [la|e'];
      [|by eexists].
    rewrite result_bind_ok.
    destruct (getitem (ambulance st) "lng") as [old'|e']; [|by eexists].
    rewrite result_bind_ok, Hf. by eexists.
Qed.

(** C2: a malformed message (invalid JSON, or a present [lat] / [lng] that
    does not parse as a float) leaves the whole session as it was: the stored
    position with its timestamp, and every light.  The exception the body
    raised stops at the [except] clause, [on_message] itself returns; no
    coordinate is applied while the other is rejected. *)
Theorem on_message_malformed rt msg st :
  malformed rt msg →
  (∃ e, on_message_try rt msg st = (Raise e, st)) ∧ on_message rt msg st = st.
Proof.
  intros Hbad. destruct (malformed_parse_update rt st msg Hbad) as [e He].
  unfold on_message. rewrite on_message_try_unfold, He. eauto.
Qed.

Lemma on_message_malformed_witness :
  on_message small_angle_runtime
    (json_object [("lat", VStr "north"); ("lng", VFloat 77.605)]) initial_state
  = initial_state.
Proof.
  apply on_message_malformed.
  apply (malformed_lat _ _ [("lat", VStr "north"); ("lng", VFloat 77.605)]
           (VStr "north") ValueError); reflexivity.
Defined.

(** * Stored positions *)

Lemma position_getitem st la lo :
  position st = Some (la, lo) →
  getitem (ambulance st) "lat" = Ok (VFloat la) ∧
  getitem (ambulance st) "lng" = Ok (VFloat lo).
Proof.
  unfold position, getitem.
  destruct (ambulance st !! "lat") as [[]|]; try discriminate.
  destruct (ambulance st !! "lng") as [[]|]; try discriminate.
  intros [= -> ->]. auto.
Qed.

Lemma on_message_position rt msg st lat lng ts :
  parse_update rt st msg = Ok (lat, lng, ts) →
  ambulance (on_message rt msg st)
  = {[ "lat" := VFloat lat; "lng" := VFloat lng; "time" := ts ]}.
Proof.
  intros H. pose proof (on_message_ambulance rt msg st) as Ha.
  rewrite H in Ha. exact Ha.
Qed.

(** C4: a JSON object that lacks [lat] (or [lng]) and whose other coordinate
    parses stores the previously held value of the missing coordinate, not a
    fixed default, next to the newly supplied value of the other. *)
Theorem on_message_missing_coordinate rt st kvs plat plng v new :
  position st = Some (plat, plng) →
  float_ rt v = Ok new →
  (dict_lookup "lat" kvs = None → dict_lookup "lng" kvs = Some v →
   position (on_message rt (json_object kvs) st) = Some (plat, new)) ∧
  (dict_lookup "lng" kvs = None → dict_lookup "lat" kvs = Some v →
   position (on_message rt (json_object kvs) st) = Some (new, plng)).
Proof.
  intros Hpos Hv. destruct (position_getitem st plat plng Hpos) as [Hla Hlo].
  split; intros Hmiss Hhere.
  - assert (Hp : parse_update rt st (json_object kvs)
                 = Ok (plat, new, default VNone (dict_lookup "time" kvs))).
    { rewrite parse_update_object, Hla, Hlo, Hmiss, Hhere. simpl.
      rewrite Hv. reflexivity. }
    unfold position. rewrite (on_message_position _ _ _ _ _ _ Hp). reflexivity.
  - assert (Hp : parse_update rt st (json_object kvs)
                 = Ok (new, plng, default VNone (dict_lookup "time" kvs))).
    { rewrite parse_update_object, Hla, Hlo, Hmiss, Hhere. simpl.
      rewrite Hv. reflexivity. }
    unfold position. rewrite (on_message_position _ _ _ _ _ _ Hp). reflexivity.
Qed.

Lemma on_message_missing_coordinate_witness :
  position (on_message small_angle_runtime
              (json_object [("lng", VFloat 77.605)]) session_moved)
  = Some (12.98%float, 77.605%float) ∧
  position (on_message small_angle_runtime
              (json_object [("lat", VFloat 12.99)]) session_moved)
  = Some (12.99%float, 77.61%float).
Proof.
  split.
  - apply (proj1 (on_message_missing_coordinate small_angle_runtime session_moved
                    [("lng", VFloat 77.605)] 12.98 77.61 (VFloat 77.605) 77.605
                    eq_refl eq_refl));
      reflexivity.
  - apply (proj2 (on_message_missing_coordinate small_angle_runtime session_moved
                    [("lat", VFloat 12.99)] 12.98 77.61 (VFloat 12.99) 12.99
                    eq_refl eq_refl));
      reflexivity.
Defined.

(** C9: when the coordinates of a JSON object are stored and the object has
    no [time] key, the stored timestamp is [None], whatever timestamp was
    held before. *)
Theorem on_message_missing_time rt st kvs lat lng ts :
  parse_update rt st (json_object kvs) = Ok (lat, lng, ts) →
  dict_lookup "time" kvs = None →
  ambulance (on_message rt (json_object kvs) st) !! "time" = Some VNone.
Proof.
  intros Hp Hmiss. rewrite (on_message_position _ _ _ _ _ _ Hp).
  rewrite parse_update_object, Hmiss in Hp.
  destruct (getitem (ambulance st) "lat") as [a|]; [|discriminate].
  rewrite result_bind_ok in Hp.
  destruct (float_ rt _) as [la|]; [|discriminate].
  rewrite result_bind_ok in Hp.
  destruct (getitem (ambulance st) "lng") as [b|]; [|discriminate].
  rewrite result_bind_ok in Hp.
  destruct (float_ rt _) as [lo|]; [|discriminate].
  rewrite result_bind_ok in Hp.
  apply (f_equal (λ r, match r with Ok (_, _, t) => t | Raise _ => VNone end)) in Hp.
  simpl in Hp. subst ts. reflexivity.
Qed.

Lemma on_message_missing_time_witness :
  ambulance
    (on_message small_angle_runtime
       (json_object [("lat", VFloat 12.98); ("lng", VFloat 77.605)])
       (store_position initial_state 12.9716 77.5946 (VStr "10:15:00")))
    !! "time" = Some VNone.
Proof.
  apply (on_message_missing_time _ _ _ 12.98%float 77.605%float VNone);
    reflexivity.
Defined.

(** C10: every stored update replaces the position record by one with
    exactly the keys [lat], [lng] and [time]; the [speed] key of the initial
    record (value [None]) is therefore gone after the first stored update,
    and no message brings it back. *)
Theorem on_message_record_keys rt :
  ambulance initial_state !! "speed" = Some VNone ∧
  (∀ st msg u, parse_update rt st msg = Ok u →
     dom (ambulance (on_message rt msg st)) = {[ "lat"; "lng"; "time" ]}) ∧
  (∀ st msg, ambulance st !! "speed" = None →
     ambulance (on_message rt msg st) !! "speed" = None).
Proof.
  split; [reflexivity|]. split.
  - intros st msg [[lat lng] ts] Hp.
    rewrite (on_message_position _ _ _ _ _ _ Hp).
    rewrite !dom_insert_L, dom_singleton_L. set_solver.
  - intros st msg Hnone. pose proof (on_message_ambulance rt msg st) as Ha.
    destruct (parse_update rt st msg) as [[[lat lng] ts]|e].
    + rewrite Ha. reflexivity.
    + rewrite Ha. exact Hnone.
Qed.

Lemma on_message_record_keys_witness :
  dom (ambulance (on_message small_angle_runtime
                    (json_object [("lat", VFloat 12.98); ("lng", VFloat 77.605)])
                    initial_state))
  = {[ "lat"; "lng"; "time" ]}.
Proof.
  apply (proj1 (proj2 (on_message_record_keys small_angle_runtime))
           initial_state _ (12.98%float, 77.605%float, VNone)).
  reflexivity.
Defined.

(** * Lights against distances *)

Lemma at_intersection_A_completes :
  on_message_try small_angle_runtime at_intersection_A initial_state
  = (Ok (), session_at_A).
Proof.
  unfold session_at_A, on_message.
  destruct (on_message_try small_angle_runtime at_intersection_A initial_state)
    as [r st'] eqn:Hrun.
  assert (Hr : r = (on_message_try small_angle_runtime at_intersection_A
                      initial_state).1) by (rewrite Hrun; reflexivity).
  vm_compute in Hr. destruct r as [[]|e]; [reflexivity|discriminate].
Defined.

Lemma at_threshold_of_A_completes :
  on_message_try measured_runtime at_threshold_of_A initial_state
  = (Ok (), session_at_threshold).
Proof.
  unfold session_at_threshold, on_message.
  destruct (on_message_try measured_runtime at_threshold_of_A initial_state)
    as [r st'] eqn:Hrun.
  assert (Hr : r = (on_message_try measured_runtime at_threshold_of_A
                      initial_state).1) by (rewrite Hrun; reflexivity).
  vm_compute in Hr. destruct r as [[]|e]; [reflexivity|discriminate].
Defined.

Lemma rejected_unchanged rt st msg : rejected rt st msg → on_message rt msg st = st.
Proof.
  intros [e He]. pose proof (on_message_ambulance rt msg st) as H.
  rewrite He in H. exact H.
Qed.

Lemma run_rejected rt st msgs :
  Forall (rejected rt st) msgs → run rt msgs st = st.
Proof.
  induction 1 as [|msg msgs Hrej _ IH]; [reflexivity|].
  unfold run in *. simpl. rewrite (rejected_unchanged _ _ _ Hrej). exact IH.
Qed.

Lemma complete_invariant rt msg st st' :
  on_message_try rt msg st = (Ok (), st') → spec_invariant rt st'.
Proof.
  intros Hrun. destruct (on_message_complete rt msg st st' Hrun)
    as (lat & lng & ts & _ & Hamb & Hlights).
  assert (Hpos : position st' = Some (lat, lng))
    by (unfold position; rewrite Hamb; reflexivity).
  intros inter Hin. destruct (Hlights inter Hin) as (d & Hd & Hl).
  rewrite Hl. split; [split|].
  - intros Hgreen. exists lat, lng, d. repeat split; try assumption.
    destruct (d <=? GREEN_DISTANCE_METERS)%float; [reflexivity|discriminate].
  - intros (lat' & lng' & d' & Hpos' & Hd' & Hle).
    rewrite Hpos in Hpos'.
    assert (lat' = lat ∧ lng' = lng) as [-> ->]
      by (split; congruence).
    rewrite Hd in Hd'.
    assert (d' = d) as ->
      by (apply (f_equal (λ r, match r with Ok x => x | Raise _ => d end)) in Hd';
          symmetry; exact Hd').
    rewrite Hle. reflexivity.
  - intros Hfar. destruct (d <=? GREEN_DISTANCE_METERS)%float eqn:Hle;
      [|reflexivity].
    exfalso. apply Hfar. exists lat, lng, d. auto.
Qed.

(** C8: immediately after a message has been processed without error, the
    stored record holds the coordinates [(lat, lng)] read from it, and every
    registered intersection [s], none omitted, has
    [lights[s] == "green"] if [haversine(lat, lng, s.lat, s.lng) <= 200.0]
    and [lights[s] == "red"] otherwise. *)
Theorem on_message_lights_consistent rt msg st st' :
  on_message_try rt msg st = (Ok (), st') →
  ∃ lat lng ts,
    ambulance st' = {[ "lat" := VFloat lat; "lng" := VFloat lng; "time" := ts ]} ∧
    Forall (λ inter,
      ∃ d, haversine rt lat lng (inter_lat inter) (inter_lng inter) = Ok d ∧
           lights st' !! inter_name inter =
           Some (if (d <=? 200.0)%float then "green" else "red"))
      INTERSECTIONS.
Proof.
  intros Hrun. destruct (on_message_complete rt msg st st' Hrun)
    as (lat & lng & ts & _ & Hamb & Hlights).
  exists lat, lng, ts. split; [exact Hamb|].
  apply Forall_forall. exact Hlights.
Qed.

Lemma on_message_lights_consistent_witness :
  ∃ lat lng ts,
    ambulance session_at_A
    = {[ "lat" := VFloat lat; "lng" := VFloat lng; "time" := ts ]} ∧
    Forall (λ inter,
      ∃ d, haversine small_angle_runtime lat lng (inter_lat inter) (inter_lng inter)
           = Ok d ∧
           lights session_at_A !! inter_name inter =
           Some (if (d <=? 200.0)%float then "green" else "red"))
      INTERSECTIONS.
Proof.
  apply (on_message_lights_consistent small_angle_runtime at_intersection_A
           initial_state).
  exact at_intersection_A_completes.
Defined.

(** C3: after a message has been processed, a registered site whose computed
    distance is [d] is green exactly when [d <= 200.0]; at [d] equal to the
    threshold it is green, at any [d] strictly above it is red. *)
Theorem threshold_inclusive rt msg st st' lat lng inter d :
  on_message_try rt msg st = (Ok (), st') →
  position st' = Some (lat, lng) →
  inter ∈ INTERSECTIONS →
  haversine rt lat lng (inter_lat inter) (inter_lng inter) = Ok d →
  (lights st' !! inter_name inter = Some "green"
     ↔ (d <=? GREEN_DISTANCE_METERS)%float = true) ∧
  (d = GREEN_DISTANCE_METERS → lights st' !! inter_name inter = Some "green") ∧
  ((GREEN_DISTANCE_METERS <? d)%float = true →
     lights st' !! inter_name inter = Some "red").
Proof.
  intros Hrun Hpos Hin Hd.
  destruct (on_message_complete rt msg st st' Hrun)
    as (lat' & lng' & ts & _ & Hamb & Hlights).
  assert (Hpos' : position st' = Some (lat', lng'))
    by (unfold position; rewrite Hamb; reflexivity).
  rewrite Hpos in Hpos'.
  assert (lat' = lat ∧ lng' = lng) as [-> ->] by (split; congruence).
  destruct (Hlights inter Hin) as (d' & Hd' & Hl).
  rewrite Hd in Hd'.
  assert (d' = d) as ->
    by (apply (f_equal (λ r, match r with Ok x => x | Raise _ => d end)) in Hd';
        symmetry; exact Hd').
  rewrite Hl. split; [|split].
  - destruct (d <=? GREEN_DISTANCE_METERS)%float; split; congruence.
  - intros ->. reflexivity.
  - intros Hgt. rewrite (Float64.ltb_not_leb _ _ Hgt). reflexivity.
Qed.

Lemma threshold_inclusive_witness :
  (haversine measured_runtime 12.973398643211837 77.59460000175483
     12.9716 77.5946 = Ok GREEN_DISTANCE_METERS ∧
   lights session_at_threshold !! "Intersection A" = Some "green") ∧
  (haversine measured_runtime 12.973398643211837 77.59460000175483
     12.975 77.59 = Ok 529.2898721906607%float ∧
   (GREEN_DISTANCE_METERS <? 529.2898721906607)%float = true ∧
   lights session_at_threshold !! "Intersection B" = Some "red").
Proof.
  split.
  - split; [vm_compute; reflexivity|].
    apply (proj1 (proj2 (threshold_inclusive measured_runtime at_threshold_of_A
             initial_state session_at_threshold
             12.973398643211837 77.59460000175483
             {| inter_name := "Intersection A"; inter_lat := 12.9716;
                inter_lng := 77.5946 |} GREEN_DISTANCE_METERS
             at_threshold_of_A_completes
             ltac:(vm_compute; reflexivity)
             ltac:(apply list_elem_of_here)
             ltac:(vm_compute; reflexivity)))).
    reflexivity.
  - split; [vm_compute; reflexivity|]. split; [reflexivity|].
    apply (proj2 (proj2 (threshold_inclusive measured_runtime at_threshold_of_A
             initial_state session_at_threshold
             12.973398643211837 77.59460000175483
             {| inter_name := "Intersection B"; inter_lat := 12.975;
                inter_lng := 77.59 |} 529.2898721906607
             at_threshold_of_A_completes
             ltac:(vm_compute; reflexivity)
             ltac:(apply list_elem_of_further, list_elem_of_here)
             ltac:(vm_compute; reflexivity)))).
    reflexivity.
Defined.

(** In a fresh session Intersection A is at distance [0] from the default
    position and its light is red. *)
Lemma initial_state_not_invariant rt :
  sin_zero rt → cos_bounded rt → ¬ spec_invariant rt initial_state.
Proof.
  intros Hsin Hcos Hinv.
  destruct (Hinv {| inter_name := "Intersection A"; inter_lat := 12.9716;
                    inter_lng := 77.5946 |}) as [[_ Hgreen] _].
  { apply list_elem_of_here. }
  assert (Hnear : within_threshold rt initial_state
            {| inter_name := "Intersection A"; inter_lat := 12.9716;
               inter_lng := 77.5946 |}).
  { exists 12.9716%float, 77.5946%float, 0%float. split; [reflexivity|]. split.
    - rewrite haversine_coincident_a by auto. reflexivity.
    - reflexivity. }
  specialize (Hgreen Hnear). vm_compute in Hgreen. discriminate Hgreen.
Qed.

(** C1, as stated, fails at the initial state, which is an observation
    point: the default position coincides with Intersection A, and all
    lights start red. *)
Lemma initial_state_counterexample :
  ¬ (∀ rt, sin_zero rt → cos_bounded rt →
       ∀ st, reachable rt st → spec_invariant rt st).
Proof.
  intros H.
  apply (initial_state_not_invariant small_angle_runtime
           small_angle_sin_zero small_angle_cos_bounded).
  apply H; [exact small_angle_sin_zero | exact small_angle_cos_bounded|].
  apply reachable_initial.
Qed.

(** C1 (amended): at any observation point that follows a message processed
    to completion, with only dropped messages since, every registered site
    is green if and only if the distance from the stored position to it is at
    most [200.0], and red otherwise.  In the initial state, before any
    message has arrived, every light is red whatever the distance. *)
Theorem invariant_after_complete_update rt :
  Forall (λ inter, lights initial_state !! inter_name inter = Some "red")
    INTERSECTIONS ∧
  ∀ msg st st' msgs,
    on_message_try rt msg st = (Ok (), st') →
    Forall (rejected rt st') msgs →
    spec_invariant rt (run rt msgs st').
Proof.
  split.
  - repeat constructor.
  - intros msg st st' msgs Hrun Hrej. rewrite (run_rejected _ _ _ Hrej).
    exact (complete_invariant rt msg st st' Hrun).
Qed.

Lemma invariant_after_complete_update_witness :
  spec_invariant small_angle_runtime
    (run small_angle_runtime [garbage] session_at_A).
Proof.
  apply (proj2 (invariant_after_complete_update small_angle_runtime)
           at_intersection_A initial_state).
  - exact at_intersection_A_completes.
  - apply Forall_cons. split; [|apply Forall_nil; exact I].
    exists JSONDecodeError. reflexivity.
Defined.

(** * The distance function near an antipode *)

Lemma math_1_value func x r :
  func x = r → is_nan r = false → is_infinity r = false →
  math_1 func false x = Ok r.
Proof. intros <- Hn Hi. unfold math_1. rewrite Hn, Hi. reflexivity. Qed.

Lemma float_pow_2_value rt x r :
  is_nan x = false → is_infinity x = false →
  (x =? 0)%float = false → (x <? 0)%float = false → (x =? 1)%float = false →
  c_pow rt x 2%float = r → is_infinity r = false →
  float_pow_2 rt x = Ok r.
Proof.
  intros Hn Hi Hz Hneg Hone <- Hr. unfold float_pow_2.
  rewrite Hn, Hi, Hz, Hneg, Hone, Hr. reflexivity.
Qed.

(** The value of [a] there, in binary64 arithmetic. *)
Lemma near_antipode_a_value :
  (0.05038590863422245 + 0.9744814474787653 * 0.9744814473612341 * 1)%float
  = 1.0000000000000002%float.
Proof. reflexivity. Qed.

Lemma haversine_near_antipode_a rt :
  correctly_rounded_near_antipode rt →
  haversine rt (-12.97159997) (-102.4054) 12.9716 77.5946
  = central_angle rt 1.0000000000000002%float.
Proof.
  intros (Hs1 & Hp1 & Hc1 & Hc2 & Hs2).
  unfold haversine. cbv zeta.
  change (math_radians (12.9716 - -12.97159997) / 2)%float
    with 0.22639712898989708%float.
  change (math_radians (77.5946 - -102.4054) / 2)%float
    with 1.5707963267948966%float.
  change (math_radians (-12.97159997)) with (-0.22639712872809767)%float.
  change (math_radians 12.9716) with 0.22639712925169647%float.
  unfold math_sin, math_cos.
  rewrite (math_1_value (c_sin rt) 0.22639712898989708 0.22446805704648146
             Hs1 eq_refl eq_refl), result_bind_ok.
  rewrite (float_pow_2_value rt 0.22446805704648146 0.05038590863422245
             eq_refl eq_refl eq_refl eq_refl eq_refl Hp1 eq_refl), result_bind_ok.
  rewrite (math_1_value (c_cos rt) (-0.22639712872809767) 0.9744814474787653
             Hc1 eq_refl eq_refl), result_bind_ok.
  rewrite (math_1_value (c_cos rt) 0.22639712925169647 0.9744814473612341
             Hc2 eq_refl eq_refl), result_bind_ok.
  rewrite (math_1_value (c_sin rt) 1.5707963267948966 1
             Hs2 eq_refl eq_refl), result_bind_ok.
  change (float_pow_2 rt 1) with (Ok 1%float). rewrite result_bind_ok.
  rewrite near_antipode_a_value. reflexivity.
Qed.

(** C5 fails on the code: at a position within the valid ranges, about 3 mm
    from the antipode of Intersection A, the rounded value of [a] is
    [1.0000000000000002], and [math.sqrt(1 - a)] raises [ValueError]
    (math domain error).  The binary64 arithmetic is evaluated here; the
    five values of [libm] it starts from are the correctly rounded ones. *)
Theorem haversine_near_antipode_raises rt :
  correctly_rounded_near_antipode rt →
  haversine rt (-12.97159997) (-102.4054) 12.9716 77.5946 = Raise ValueError.
Proof.
  intros Hrt. rewrite (haversine_near_antipode_a rt Hrt). unfold central_angle.
  change (math_sqrt 1.0000000000000002) with (Ok 1%float).
  rewrite result_bind_ok.
  change (1 - 1.0000000000000002)%float with (-2.220446049250313e-16)%float.
  reflexivity.
Qed.

Lemma near_antipode_runtime_rounded :
  correctly_rounded_near_antipode near_antipode_runtime.
Proof. repeat split; reflexivity. Qed.

Lemma haversine_near_antipode_raises_witness :
  haversine near_antipode_runtime (-12.97159997) (-102.4054) 12.9716 77.5946
  = Raise ValueError.
Proof.
  apply haversine_near_antipode_raises. exact near_antipode_runtime_rounded.
Defined.

(** X1: the callback reaches that computation: the message is read and its
    position stored, the loop raises at the first intersection, and every
    light keeps the state it had, green or red. *)
Lemma on_message_near_antipode rt st la lo :
  correctly_rounded_near_antipode rt →
  position st = Some (la, lo) →
  on_message_try rt near_antipode_of_A st
  = (Raise ValueError,
     store_position st (-12.97159997) (-102.4054) VNone).
Proof.
  intros Hrt Hpos. destruct (position_getitem st la lo Hpos) as [Hla Hlo].
  rewrite on_message_try_unfold. unfold near_antipode_of_A.
  rewrite parse_update_object, Hla, Hlo. simpl.
  unfold mbind, cmd_bind. rewrite update_light_unfold. simpl.
  rewrite (haversine_near_antipode_a rt Hrt). reflexivity.
Qed.

Lemma on_message_near_antipode_witness :
  on_message_try near_antipode_runtime near_antipode_of_A session_at_A
  = (Raise ValueError,
     store_position session_at_A (-12.97159997) (-102.4054) VNone) ∧
  lights (store_position session_at_A (-12.97159997) (-102.4054) VNone)
    !! "Intersection A" = Some "green".
Proof.
  split.
  - apply (on_message_near_antipode near_antipode_runtime session_at_A
             12.9716 77.5946).
    + exact near_antipode_runtime_rounded.
    + vm_compute. reflexivity.
  - vm_compute. reflexivity.
Defined.

(** * The loop as a list of assignments *)

Lemma for_each_loop_writes rt lat lng its : ∀ st,
  for_each (update_light rt lat lng) its st =
  ((loop_writes rt lat lng its).1,
   {| ambulance := ambulance st;
      lights := apply_writes (loop_writes rt lat lng its).2 (lights st);
      mqtt_connected := mqtt_connected st |}).
Proof.
  induction its as [|it rest IH]; intros st.
  - destruct st. reflexivity.
  - simpl. unfold mbind, cmd_bind. rewrite update_light_unfold.
    destruct (haversine rt lat lng (inter_lat it) (inter_lng it)) as [d|e].
    + rewrite IH. reflexivity.
    + destruct st. reflexivity.
Qed.

Lemma lookup_apply_writes ws : ∀ (l : gmap string string) k,
  apply_writes ws l !! k =
  match last_write k ws with Some v => Some v | None => l !! k end.
Proof.
  induction ws as [|[k' v] ws IH]; intros l k; [reflexivity|].
  unfold apply_writes in *. simpl. rewrite IH.
  destruct (last_write k ws); [reflexivity|].
  destruct (String.eqb_spec k k') as [->|Hne].
  - apply lookup_insert_eq.
  - apply lookup_insert_ne. congruence.
Qed.

Lemma apply_writes_idempotent ws (l : gmap string string) :
  apply_writes ws (apply_writes ws l) = apply_writes ws l.
Proof.
  apply map_eq. intros k. rewrite !lookup_apply_writes.
  destruct (last_write k ws); reflexivity.
Qed.

Lemma on_message_writes rt msg st lat lng ts :
  parse_update rt st msg = Ok (lat, lng, ts) →
  on_message rt msg st =
  {| ambulance := {[ "lat" := VFloat lat; "lng" := VFloat lng; "time" := ts ]};
     lights := apply_writes (loop_writes rt lat lng INTERSECTIONS).2 (lights st);
     mqtt_connected := mqtt_connected st |}.
Proof.
  intros Hp. unfold on_message.
  rewrite on_message_try_unfold, Hp, for_each_loop_writes. reflexivity.
Qed.

Lemma on_message_mqtt_connected rt msg st :
  mqtt_connected (on_message rt msg st) = mqtt_connected st.
Proof.
  destruct (parse_update rt st msg) as [[[lat lng] ts]|e] eqn:Hp.
  - rewrite (on_message_writes _ _ _ _ _ _ Hp). reflexivity.
  - rewrite (rejected_unchanged rt st msg); [reflexivity | by exists e].
Qed.

(** Reading the same message against the record it has just stored gives
    the same update. *)
Lemma parse_update_again rt st st1 msg lat lng ts :
  parse_update rt st msg = Ok (lat, lng, ts) →
  ambulance st1 = {[ "lat" := VFloat lat; "lng" := VFloat lng; "time" := ts ]} →
  parse_update rt st1 msg = Ok (lat, lng, ts).
Proof.
  intros Hp Hamb. destruct msg as [[data|e]]; [|discriminate Hp].
  destruct data as [| | | | | |kvs]; try discriminate Hp.
  change {| loads_payload := Ok (VDict kvs) |} with (json_object kvs) in *.
  rewrite parse_update_object in *. rewrite Hamb.
  change (getitem {[ "lat" := VFloat lat; "lng" := VFloat lng; "time" := ts ]} "lat")
    with (Ok (VFloat lat)).
  change (getitem {[ "lat" := VFloat lat; "lng" := VFloat lng; "time" := ts ]} "lng")
    with (Ok (VFloat lng)).
  rewrite !result_bind_ok.
  destruct (getitem (ambulance st) "lat") as [old_lat|]; [|discriminate Hp].
  rewrite result_bind_ok in Hp.
  destruct (float_ rt (default old_lat (dict_lookup "lat" kvs))) as [la|] eqn:Hla;
    [|discriminate Hp].
  rewrite result_bind_ok in Hp.
  destruct (getitem (ambulance st) "lng") as [old_lng|]; [|discriminate Hp].
  rewrite result_bind_ok in Hp.
  destruct (float_ rt (default old_lng (dict_lookup "lng" kvs))) as [lo|] eqn:Hlo;
    [|discriminate Hp].
  rewrite result_bind_ok in Hp.
  assert (la = lat)
    by exact (f_equal (λ r, match r with Ok (x, _, _) => x | Raise _ => la end) Hp).
  assert (lo = lng)
    by exact (f_equal (λ r, match r with Ok (_, y, _) => y | Raise _ => lo end) Hp).
  subst la lo.
  assert (Hla' : float_ rt (default (VFloat lat) (dict_lookup "lat" kvs)) = Ok lat)
    by (destruct (dict_lookup "lat" kvs); [exact Hla | reflexivity]).
  assert (Hlo' : float_ rt (default (VFloat lng) (dict_lookup "lng" kvs)) = Ok lng)
    by (destruct (dict_lookup "lng" kvs); [exact Hlo | reflexivity]).
  rewrite Hla', !result_bind_ok, Hlo', result_bind_ok. exact Hp.
Qed.

(** X5: delivering a message a second time right after the first changes
    nothing: [on_message] is idempotent on every session, whether the
    message is dropped, processed to completion, or aborted inside the
    loop. *)
Theorem on_message_idempotent rt msg st :
  on_message rt msg (on_message rt msg st) = on_message rt msg st.
Proof.
  destruct (parse_update rt st msg) as [[[lat lng] ts]|e] eqn:Hp.
  - rewrite (on_message_writes _ _ _ _ _ _ Hp).
    set (st1 := {| ambulance := _; lights := _; mqtt_connected := _ |}).
    assert (Hp1 : parse_update rt st1 msg = Ok (lat, lng, ts))
      by (apply (parse_update_again rt st st1 msg lat lng ts Hp); reflexivity).
    rewrite (on_message_writes _ _ _ _ _ _ Hp1). unfold st1. simpl.
    rewrite apply_writes_idempotent. reflexivity.
  - assert (Hrej : rejected rt st msg) by (by exists e).
    rewrite !(rejected_unchanged rt st msg Hrej). reflexivity.
Qed.

(** * The shape of the session *)

Lemma loop_writes_shape rt lat lng its :
  Forall (λ w, w.1 ∈ inter_name <$> its ∧ (w.2 = "red" ∨ w.2 = "green"))
    (loop_writes rt lat lng its).2.
Proof.
  induction its as [|it rest IH]; simpl; [constructor|].
  destruct (haversine rt lat lng (inter_lat it) (inter_lng it)) as [d|e];
    simpl; [|constructor].
  constructor.
  - simpl. split; [apply list_elem_of_here|].
    destruct (d <=? GREEN_DISTANCE_METERS)%float; auto.
  - eapply Forall_impl; [exact IH|]. intros w [Hin Hv]. split; [|exact Hv].
    apply list_elem_of_further, Hin.
Qed.

Lemma apply_writes_shape (names : gset string) ws : ∀ l : gmap string string,
  Forall (λ w, w.1 ∈ names ∧ (w.2 = "red" ∨ w.2 = "green")) ws →
  dom l = names →
  (∀ k v, l !! k = Some v → v = "red" ∨ v = "green") →
  dom (apply_writes ws l) = names ∧
  ∀ k v, apply_writes ws l !! k = Some v → v = "red" ∨ v = "green".
Proof.
  induction ws as [|[k0 v0] ws IH]; intros l Hws Hdom Hval; [auto|].
  apply Forall_cons in Hws as [[Hk Hv] Hws]. simpl in Hk, Hv.
  unfold apply_writes in *. simpl. apply IH; [exact Hws| |].
  - rewrite dom_insert_L, Hdom.
    apply subseteq_union_1_L, singleton_subseteq_l, Hk.
  - intros k v Hkv. apply lookup_insert_Some in Hkv as [[_ <-]|[_ Hkv]];
      [exact Hv | exact (Hval k v Hkv)].
Qed.

Lemma initial_state_well_formed : well_formed initial_state.
Proof.
  split; [|split].
  - exists 12.9716%float, 77.5946%float, VNone. repeat split; reflexivity.
  - apply set_eq. intros k. rewrite elem_of_dom. unfold initial_state, initial_lights.
    simpl. rewrite !elem_of_union, !elem_of_singleton.
    split.
    + intros [v Hv].
      repeat (apply lookup_insert_Some in Hv as [[<- _]|[_ Hv]]; [set_solver|]).
      rewrite lookup_empty in Hv. discriminate.
    + intros [->|[->|[->|H]]]; [by eexists..|set_solver].
  - intros k v Hv. unfold initial_state, initial_lights in Hv. simpl in Hv.
    repeat (apply lookup_insert_Some in Hv as [[_ <-]|[_ Hv]]; [auto|]).
    rewrite lookup_empty in Hv. discriminate.
Qed.

Lemma on_message_well_formed rt msg st :
  well_formed st → well_formed (on_message rt msg st).
Proof.
  intros Hwf.
  destruct (parse_update rt st msg) as [[[lat lng] ts]|e] eqn:Hp.
  - rewrite (on_message_writes _ _ _ _ _ _ Hp).
    destruct Hwf as (_ & Hdom & Hval). split.
    + exists lat, lng, ts. repeat split; reflexivity.
    + cbn [lights]. apply apply_writes_shape; [|exact Hdom|exact Hval].
      eapply Forall_impl; [apply loop_writes_shape|].
      intros w [Hin Hv]. split; [|exact Hv]. apply elem_of_list_to_set, Hin.
  - rewrite (rejected_unchanged rt st msg); [exact Hwf | by exists e].
Qed.

(** X3: [on_message] keeps the shape of the session it is applied to.
    From a session whose position record has float [lat] and [lng] and a
    [time] entry, and whose light dictionary has exactly the names of
    [INTERSECTIONS] as keys, each mapped to ["red"] or ["green"], any
    sequence of messages (valid, malformed, or aborted inside the loop)
    leads to a session of that shape. *)
Theorem session_shape_invariant rt msgs st :
  well_formed st →
  (∃ la lo ts, position (run rt msgs st) = Some (la, lo) ∧
               ambulance (run rt msgs st) !! "time" = Some ts) ∧
  dom (lights (run rt msgs st))
  = {[ "Intersection A"; "Intersection B"; "Intersection C" ]} ∧
  ∀ k v, lights (run rt msgs st) !! k = Some v → v = "red" ∨ v = "green".
Proof.
  intros Hwf.
  assert (Hrun : well_formed (run rt msgs st)).
  { revert st Hwf. induction msgs as [|msg msgs IH]; intros st Hwf; [exact Hwf|].
    unfold run in *. simpl. apply IH, on_message_well_formed, Hwf. }
  destruct Hrun as ((la & lo & ts & Hla & Hlo & Hts) & Hdom & Hval).
  split; [|split].
  - exists la, lo, ts. split; [|exact Hts].
    unfold position. rewrite Hla, Hlo. reflexivity.
  - rewrite Hdom. simpl. set_solver.
  - exact Hval.
Qed.

Lemma init_session_empty : init_session empty_store = initial_state.
Proof. reflexivity. Qed.

(** A later run of the script finds the attributes and keeps them. *)
Lemma init_session_of_session st : init_session (of_session st) = st.
Proof. destruct st. reflexivity. Qed.

Lemma session_shape_invariant_witness :
  let st' := run measured_runtime
               [at_threshold_of_A; garbage; over_the_pole_at_B]
               (init_session empty_store) in
  (∃ la lo ts, position st' = Some (la, lo) ∧
               ambulance st' !! "time" = Some ts) ∧
  dom (lights st')
  = {[ "Intersection A"; "Intersection B"; "Intersection C" ]} ∧
  ∀ k v, lights st' !! k = Some v → v = "red" ∨ v = "green".
Proof.
  apply (session_shape_invariant measured_runtime
           [at_threshold_of_A; garbage; over_the_pole_at_B]
           (init_session empty_store)).
  rewrite init_session_empty. exact initial_state_well_formed.
Defined.

(** * The page *)

Lemma circle_markers_ok st its :
  (∀ it, it ∈ its → is_Some (lights st !! inter_name it)) →
  (∀ k v, lights st !! k = Some v → v = "red" ∨ v = "green") →
  ∃ markers,
    for_each_result (circle_marker st) its = Ok markers ∧
    Forall2 (λ it m, ∃ status, m = (inter_name it, status, status) ∧
                               lights st !! inter_name it = Some status)
      its markers.
Proof.
  intros Hdom Hval. induction its as [|it rest IH].
  - exists []. split; [reflexivity | constructor].
  - destruct IH as (markers & Hrest & Hall).
    { intros it' Hin. apply Hdom, list_elem_of_further, Hin. }
    destruct (Hdom it (list_elem_of_here _ _)) as [status Hstatus].
    exists ((inter_name it, status, status) :: markers). split.
    + assert (Hit : circle_marker st it = Ok (inter_name it, status, status)).
      { unfold circle_marker, getitem_light, mbind, result_bind. rewrite Hstatus.
        destruct (Hval _ _ Hstatus) as [-> | ->]; reflexivity. }
      simpl. rewrite Hit, result_bind_ok, Hrest. reflexivity.
    + constructor; [|exact Hall]. exists status. auto.
Qed.

(** X4: on a session of that shape, one run of the page over it raises
    nothing: the position record has the keys the page reads and both
    coordinates format as numbers, every intersection has a light, and the
    colour drawn for it is the stored status itself (the [else "red"] branch
    only ever meets ["red"]). *)
Theorem page_renders st :
  well_formed st →
  ∃ la lo ts markers,
    position st = Some (la, lo) ∧
    ambulance st !! "time" = Some ts ∧
    page st = Ok ((la, lo, ts), markers, heartbeat st) ∧
    Forall2 (λ it m, ∃ status, m = (inter_name it, status, status) ∧
                               lights st !! inter_name it = Some status)
      INTERSECTIONS markers.
Proof.
  intros ((la & lo & ts & Hla & Hlo & Hts) & Hdom & Hval).
  destruct (circle_markers_ok st INTERSECTIONS) as (markers & Hm & Hall);
    [|exact Hval|].
  { intros it Hin. apply elem_of_dom. rewrite Hdom.
    apply elem_of_list_to_set, list_elem_of_fmap. exists it. auto. }
  exists la, lo, ts, markers. split; [|split; [exact Hts|split; [|exact Hall]]].
  - unfold position. rewrite Hla, Hlo. reflexivity.
  - unfold page, ambulance_marker, getitem, mbind, result_bind.
    rewrite Hla, Hlo, Hts, Hm. reflexivity.
Qed.

Lemma session_at_threshold_well_formed : well_formed session_at_threshold.
Proof. apply on_message_well_formed, initial_state_well_formed. Qed.

Lemma page_renders_witness :
  ∃ la lo ts markers,
    position session_at_threshold = Some (la, lo) ∧
    ambulance session_at_threshold !! "time" = Some ts ∧
    page session_at_threshold
    = Ok ((la, lo, ts), markers, heartbeat session_at_threshold) ∧
    Forall2 (λ it m, ∃ status, m = (inter_name it, status, status) ∧
                               lights session_at_threshold !! inter_name it
                               = Some status)
      INTERSECTIONS markers.
Proof.
  apply (page_renders session_at_threshold).
  exact session_at_threshold_well_formed.
Defined.

(** * The callbacks on their thread *)

(** With the script-run context, and the three attributes in place, the
    callback is the [on_message] of the session. *)
Lemma read_update_in_script_run rt msg st :
  read_update_in rt ScriptRun msg (of_session st)
  = (parse_update rt st msg, of_session st).
Proof.
  unfold parse_update, read_update, read_update_in, mbind, cmd_bind, scmd_bind,
    lift, slift, read_ambulance, getattr. simpl.
  destruct (loads_payload msg) as [data|e]; [|reflexivity].
  destruct (getattr_get data) as [get|e]; [|reflexivity].
  destruct (getitem (ambulance st) "lat") as [old_lat|e]; [|reflexivity].
  destruct (float_ rt (get "lat" old_lat)) as [lat|e]; [|reflexivity].
  destruct (getitem (ambulance st) "lng") as [old_lng|e]; [|reflexivity].
  destruct (float_ rt (get "lng" old_lng)) as [lng|e]; reflexivity.
Qed.

Lemma update_light_in_script_run rt lat lng inter st :
  update_light_in rt ScriptRun lat lng inter (of_session st)
  = ((update_light rt lat lng inter st).1,
     of_session (update_light rt lat lng inter st).2).
Proof.
  rewrite update_light_unfold.
  unfold update_light_in, setitem_light, mbind, scmd_bind, slift, getattr, setattr.
  destruct (haversine rt lat lng (inter_lat inter) (inter_lng inter)) as [d|e];
    [|reflexivity].
  destruct (d <=? GREEN_DISTANCE_METERS)%float; reflexivity.
Qed.

Lemma for_each_in_script_run rt lat lng its : ∀ st,
  for_each_in (update_light_in rt ScriptRun lat lng) its (of_session st)
  = ((for_each (update_light rt lat lng) its st).1,
     of_session (for_each (update_light rt lat lng) its st).2).
Proof.
  induction its as [|it rest IH]; intros st; [reflexivity|].
  simpl. unfold mbind, scmd_bind, cmd_bind.
  rewrite update_light_in_script_run.
  destruct (update_light rt lat lng it st) as [[[]|e] st1]; simpl;
    [apply IH | reflexivity].
Qed.

Lemma on_message_in_script_run rt msg st :
  on_message_try_in rt ScriptRun msg (of_session st)
  = ((on_message_try rt msg st).1, of_session (on_message_try rt msg st).2) ∧
  on_message_in rt ScriptRun msg (of_session st)
  = of_session (on_message rt msg st).
Proof.
  assert (H : on_message_try_in rt ScriptRun msg (of_session st)
              = ((on_message_try rt msg st).1,
                 of_session (on_message_try rt msg st).2)).
  { rewrite on_message_try_unfold. unfold on_message_try_in.
    unfold mbind at 1. unfold scmd_bind at 1. rewrite read_update_in_script_run.
    destruct (parse_update rt st msg) as [[[lat lng] ts]|e]; [|reflexivity].
    unfold mbind at 1. unfold scmd_bind at 1. simpl setattr.
    exact (for_each_in_script_run rt lat lng INTERSECTIONS
             (store_position st lat lng ts)). }
  split; [exact H|]. unfold on_message_in, on_message. rewrite H. reflexivity.
Qed.

(** Where the store the callback meets has no [ambulance] attribute, the
    default argument of the first [data.get] cannot be evaluated. *)
Lemma on_message_try_in_missing rt ctx msg s :
  attr_ambulance (get_session_state ctx s) = None →
  on_message_try_in rt ctx msg s
  = (Raise (match loads_payload msg with
            | Raise e => e
            | Ok _ => AttributeError
            end), s).
Proof.
  intros Hnone.
  unfold on_message_try_in, read_update_in, mbind, scmd_bind, slift, getattr.
  destruct (loads_payload msg) as [data|e]; [|reflexivity].
  destruct data; simpl; rewrite ?Hnone; reflexivity.
Qed.

(** X10: [on_message] needs the [ambulance] attribute before it looks at the
    message.  Where [st.session_state] has none, as on a thread without
    script-run context, every message is dropped and the store is left as it
    was: a payload that does not parse raises its own error, and any other
    payload, complete and valid ones included, raises [AttributeError],
    because the default argument [st.session_state.ambulance["lat"]] is
    evaluated before [data.get] is called. *)
Theorem on_message_needs_ambulance rt ctx msg s :
  attr_ambulance (get_session_state ctx s) = None →
  on_message_try_in rt ctx msg s
  = (Raise (match loads_payload msg with
            | Raise e => e
            | Ok _ => AttributeError
            end), s) ∧
  on_message_in rt ctx msg s = s.
Proof.
  intros Hnone. unfold on_message_in.
  rewrite (on_message_try_in_missing rt ctx msg s Hnone). auto.
Qed.

Lemma on_message_needs_ambulance_witness :
  on_message_try_in measured_runtime NoContext at_threshold_of_A
    (of_session session_at_C)
  = (Raise AttributeError, of_session session_at_C) ∧
  on_message_in measured_runtime NoContext at_threshold_of_A
    (of_session session_at_C)
  = of_session session_at_C.
Proof.
  apply (on_message_needs_ambulance measured_runtime NoContext at_threshold_of_A
           (of_session session_at_C)).
  reflexivity.
Defined.





(** * Coordinates that are not numbers *)

Module Float64Special.

Lemma sub_nan_r x : (x - nan)%float = nan.
Proof.
  apply Prim2SF_inj. rewrite sub_spec. change (Prim2SF nan) with S754_nan.
  destruct (Prim2SF x); reflexivity.
Qed.

Lemma add_nan_r x : (x + nan)%float = nan.
Proof.
  apply Prim2SF_inj. rewrite add_spec. change (Prim2SF nan) with S754_nan.
  destruct (Prim2SF x); reflexivity.
Qed.

Lemma mul_nan_r x : (x * nan)%float = nan.
Proof.
  apply Prim2SF_inj. rewrite mul_spec. change (Prim2SF nan) with S754_nan.
  destruct (Prim2SF x); reflexivity.
Qed.

Lemma leb_nan_l y : (nan <=? y)%float = false.
Proof. rewrite leb_spec. reflexivity. Qed.

Lemma is_infinity_cases x :
  is_infinity x = true → x = infinity ∨ x = neg_infinity.
Proof.
  rewrite Float64.is_infinity_spec. intros H.
  destruct (Prim2SF x) as [s|s| |s m e] eqn:E; try discriminate.
  destruct s; [right|left]; apply Prim2SF_inj; rewrite E; reflexivity.
Qed.

(** A finite number minus an infinity, scaled to radians and halved, is the
    opposite infinity. *)
Lemma radians_half_infinite x y :
  is_infinity x = true → is_finite y = true →
  (math_radians (y - x) / 2)%float = (- x)%float.
Proof.
  rewrite Float64.is_infinity_spec, Float64.is_finite_spec. intros Hx Hy.
  apply Prim2SF_inj. unfold math_radians.
  rewrite div_spec, mul_spec, sub_spec, opp_spec.
  change (Prim2SF degToRad) with (S754_finite false 5030569068109113 (-58)).
  change (Prim2SF 2) with (S754_finite false 4503599627370496 (-51)).
  destruct (Prim2SF x) as [s|s| |s m e]; try discriminate.
  destruct (Prim2SF y) as [sy|sy| |sy my ey]; try discriminate;
    destruct s; reflexivity.
Qed.

End Float64Special.

Lemma half_chord_nan rt : sin_nan rt → half_chord rt nan = Ok nan.
Proof.
  intros Hnan. unfold half_chord, math_sin, math_1.
  change (math_radians nan / 2)%float with nan. rewrite Hnan. reflexivity.
Qed.

Lemma is_nan_Ok (r : result float) d :
  r = Ok nan → r = Ok d → is_nan d = true.
Proof.
  intros -> H.
  exact (f_equal (λ r, match r with Ok x => is_nan x | Raise _ => true end)
           (eq_sym H)).
Qed.

(** A NaN coordinate never yields a number: the distance is NaN whenever
    one is returned. *)
Lemma haversine_nan rt lat1 lon1 lat2 lon2 d :
  sin_nan rt →
  is_nan lat1 || is_nan lon1 = true →
  haversine rt lat1 lon1 lat2 lon2 = Ok d →
  is_nan d = true.
Proof.
  intros Hsin Hnan. rewrite haversine_half_chords.
  destruct (is_nan lat1) eqn:H1.
  - rewrite (Float64.is_nan_eq lat1 H1), Float64Special.sub_nan_r.
    rewrite (half_chord_nan rt Hsin), result_bind_ok.
    destruct (math_cos rt (math_radians nan)) as [c1|]; [|discriminate].
    rewrite result_bind_ok.
    destruct (math_cos rt (math_radians lat2)) as [c2|]; [|discriminate].
    rewrite result_bind_ok.
    destruct (half_chord rt (lon2 - lon1)) as [p2|]; [|discriminate].
    rewrite result_bind_ok, add_nan_l. apply is_nan_Ok. reflexivity.
  - simpl in Hnan.
    rewrite (Float64.is_nan_eq lon1 Hnan), Float64Special.sub_nan_r.
    destruct (half_chord rt (lat2 - lat1)) as [p1|]; [|discriminate].
    rewrite result_bind_ok.
    destruct (math_cos rt (math_radians lat1)) as [c1|]; [|discriminate].
    rewrite result_bind_ok.
    destruct (math_cos rt (math_radians lat2)) as [c2|]; [|discriminate].
    rewrite result_bind_ok.
    rewrite (half_chord_nan rt Hsin), result_bind_ok.
    rewrite Float64Special.mul_nan_r, Float64Special.add_nan_r.
    apply is_nan_Ok. reflexivity.
Qed.

(** X6: a position message whose latitude or longitude is NaN (the JSON
    token [NaN], or the string ["nan"]) never turns a light green: when it
    is processed to completion, every intersection is red. *)
Theorem nan_position_all_red rt msg st st' lat lng :
  sin_nan rt →
  on_message_try rt msg st = (Ok (), st') →
  position st' = Some (lat, lng) →
  is_nan lat || is_nan lng = true →
  Forall (λ inter, lights st' !! inter_name inter = Some "red") INTERSECTIONS.
Proof.
  intros Hsin Hrun Hpos Hnan.
  destruct (on_message_complete rt msg st st' Hrun)
    as (lat' & lng' & ts & _ & Hamb & Hlights).
  assert (Hpos' : position st' = Some (lat', lng'))
    by (unfold position; rewrite Hamb; reflexivity).
  rewrite Hpos in Hpos'.
  assert (lat' = lat ∧ lng' = lng) as [-> ->] by (split; congruence).
  apply Forall_forall. intros inter Hin.
  destruct (Hlights inter Hin) as (d & Hd & Hl).
  rewrite Hl, (Float64.is_nan_eq d (haversine_nan rt _ _ _ _ d Hsin Hnan Hd)).
  rewrite Float64Special.leb_nan_l. reflexivity.
Qed.

Lemma nan_latitude_completes :
  on_message_try small_angle_runtime nan_latitude session_at_A
  = (Ok (), on_message small_angle_runtime nan_latitude session_at_A).
Proof.
  unfold on_message.
  destruct (on_message_try small_angle_runtime nan_latitude session_at_A)
    as [r st'] eqn:Hrun.
  assert (Hr : r = (on_message_try small_angle_runtime nan_latitude
                      session_at_A).1) by (rewrite Hrun; reflexivity).
  vm_compute in Hr. destruct r as [[]|e]; [reflexivity|discriminate].
Defined.

Lemma nan_position_all_red_witness :
  Forall (λ inter,
            lights (on_message small_angle_runtime nan_latitude session_at_A)
              !! inter_name inter = Some "red") INTERSECTIONS.
Proof.
  apply (nan_position_all_red small_angle_runtime nan_latitude session_at_A
           _ nan 77.5946).
  - exact small_angle_sin_nan.
  - exact nan_latitude_completes.
  - vm_compute. reflexivity.
  - reflexivity.
Defined.

Lemma math_sin_infinite rt x :
  sin_infinite rt → is_infinity x = true → math_sin rt (- x) = Raise ValueError.
Proof.
  intros [Hpos Hneg] Hx. unfold math_sin, math_1.
  destruct (Float64Special.is_infinity_cases x Hx) as [-> | ->].
  - change (- infinity)%float with neg_infinity. rewrite Hneg. reflexivity.
  - change (- neg_infinity)%float with infinity. rewrite Hpos. reflexivity.
Qed.

Lemma half_chord_infinite rt x y :
  sin_infinite rt → is_infinity x = true → is_finite y = true →
  half_chord rt (y - x) = Raise ValueError.
Proof.
  intros Hsin Hx Hy. unfold half_chord.
  rewrite (Float64Special.radians_half_infinite x y Hx Hy).
  rewrite (math_sin_infinite rt x Hsin Hx). reflexivity.
Qed.

(** From an infinite coordinate to a finite point [haversine] returns no
    distance. *)
Lemma haversine_infinite rt lat1 lon1 lat2 lon2 :
  sin_infinite rt →
  is_infinity lat1 || is_infinity lon1 = true →
  is_finite lat2 = true → is_finite lon2 = true →
  ∃ e, haversine rt lat1 lon1 lat2 lon2 = Raise e.
Proof.
  intros Hsin Hinf Hlat2 Hlon2. rewrite haversine_half_chords.
  destruct (is_infinity lat1) eqn:H1.
  - rewrite (half_chord_infinite rt lat1 lat2 Hsin H1 Hlat2). by eexists.
  - simpl in Hinf.
    destruct (half_chord rt (lat2 - lat1)) as [p1|e]; [|by eexists].
    rewrite result_bind_ok.
    destruct (math_cos rt (math_radians lat1)) as [c1|e]; [|by eexists].
    rewrite result_bind_ok.
    destruct (math_cos rt (math_radians lat2)) as [c2|e]; [|by eexists].
    rewrite result_bind_ok.
    rewrite (half_chord_infinite rt lon1 lon2 Hsin Hinf Hlon2). by eexists.
Qed.

(** X7: a position message with an infinite latitude or longitude (the JSON
    token [Infinity], or a literal such as [1e999]) is not rejected: its
    position is stored, the distance to the first intersection raises, and
    every light keeps the state it had. *)
Theorem infinite_position_stale_lights rt msg st lat lng ts :
  sin_infinite rt →
  parse_update rt st msg = Ok (lat, lng, ts) →
  is_infinity lat || is_infinity lng = true →
  ∃ e, on_message_try rt msg st = (Raise e, store_position st lat lng ts).
Proof.
  intros Hsin Hp Hinf.
  rewrite on_message_try_unfold, Hp. simpl for_each.
  unfold mbind, cmd_bind. rewrite update_light_unfold.
  destruct (haversine_infinite rt lat lng 12.9716 77.5946 Hsin Hinf eq_refl eq_refl)
    as [e He].
  simpl inter_lat. simpl inter_lng. rewrite He. by exists e.
Qed.

Lemma annex_f_sin_infinite : sin_infinite annex_f_runtime.
Proof. split; reflexivity. Qed.

Lemma infinite_position_stale_lights_witness :
  ∃ e, on_message_try annex_f_runtime infinite_latitude initial_state
       = (Raise e, store_position initial_state infinity 77.5946 VNone).
Proof.
  apply infinite_position_stale_lights;
    [exact annex_f_sin_infinite | reflexivity | reflexivity].
Defined.

(** * No memory of earlier positions *)

Lemma loop_writes_complete_keys rt lat lng its :
  (loop_writes rt lat lng its).1 = Ok () →
  ∀ k, k ∈ inter_name <$> its →
    is_Some (last_write k (loop_writes rt lat lng its).2).
Proof.
  induction its as [|it rest IH]; intros Hok k Hin; [inversion Hin|].
  simpl in *.
  destruct (haversine rt lat lng (inter_lat it) (inter_lng it)) as [d|e];
    [|discriminate Hok].
  simpl in *. apply elem_of_cons in Hin.
  destruct (last_write k (loop_writes rt lat lng rest).2) as [v|] eqn:Hlast;
    [by eexists|].
  destruct Hin as [-> | Hin].
  - rewrite String.eqb_refl. by eexists.
  - destruct (IH Hok k Hin) as [v Hv]. congruence.
Qed.

Lemma apply_writes_complete rt lat lng (l1 l2 : gmap string string) :
  (loop_writes rt lat lng INTERSECTIONS).1 = Ok () →
  dom l1 = list_to_set (inter_name <$> INTERSECTIONS) →
  dom l2 = list_to_set (inter_name <$> INTERSECTIONS) →
  apply_writes (loop_writes rt lat lng INTERSECTIONS).2 l1
  = apply_writes (loop_writes rt lat lng INTERSECTIONS).2 l2.
Proof.
  intros Hok Hd1 Hd2. apply map_eq. intros k. rewrite !lookup_apply_writes.
  destruct (last_write k (loop_writes rt lat lng INTERSECTIONS).2) as [v|] eqn:Hlast;
    [reflexivity|].
  assert (Hk : k ∉ inter_name <$> INTERSECTIONS).
  { intros Hin. destruct (loop_writes_complete_keys rt lat lng _ Hok k Hin) as [v Hv].
    congruence. }
  assert (Hk' : k ∉ (list_to_set (inter_name <$> INTERSECTIONS) : gset string))
    by (rewrite elem_of_list_to_set; exact Hk).
  rewrite (proj1 (not_elem_of_dom l1 k)) by (rewrite Hd1; exact Hk').
  rewrite (proj1 (not_elem_of_dom l2 k)) by (rewrite Hd2; exact Hk').
  reflexivity.
Qed.

Lemma parse_update_both_present rt st kvs vlat vlng :
  well_formed st →
  dict_lookup "lat" kvs = Some vlat → dict_lookup "lng" kvs = Some vlng →
  parse_update rt st (json_object kvs) =
  (lat ← float_ rt vlat; lng ← float_ rt vlng;
   mret (lat, lng, default VNone (dict_lookup "time" kvs))).
Proof.
  intros ((la & lo & ts & Hla & Hlo & _) & _) Hlat Hlng.
  rewrite parse_update_object. unfold getitem. rewrite Hla, Hlo, Hlat, Hlng.
  reflexivity.
Qed.

(** X8: the lights have no memory.  A message that carries both
    coordinates and is processed to completion leaves the same position
    record and the same light dictionary whatever the session held before:
    nothing of an earlier position survives it. *)
Theorem complete_message_overrides_history rt kvs vlat vlng st1 st2 st1' :
  well_formed st1 → well_formed st2 →
  dict_lookup "lat" kvs = Some vlat → dict_lookup "lng" kvs = Some vlng →
  on_message_try rt (json_object kvs) st1 = (Ok (), st1') →
  ambulance (on_message rt (json_object kvs) st2) = ambulance st1' ∧
  lights (on_message rt (json_object kvs) st2) = lights st1'.
Proof.
  intros Hwf1 Hwf2 Hlat Hlng Hrun.
  pose proof (parse_update_both_present rt st1 kvs vlat vlng Hwf1 Hlat Hlng) as Hp1.
  pose proof (parse_update_both_present rt st2 kvs vlat vlng Hwf2 Hlat Hlng) as Hp2.
  rewrite <- Hp1 in Hp2.
  rewrite on_message_try_unfold in Hrun.
  destruct (parse_update rt st1 (json_object kvs)) as [[[lat lng] ts]|e];
    [|discriminate Hrun].
  rewrite for_each_loop_writes in Hrun.
  rewrite (on_message_writes _ _ _ _ _ _ Hp2).
  assert (Hok : (loop_writes rt lat lng INTERSECTIONS).1 = Ok ())
    by exact (f_equal fst Hrun).
  assert (Hst : st1' = {|
      ambulance := ambulance (store_position st1 lat lng ts);
      lights := apply_writes (loop_writes rt lat lng INTERSECTIONS).2
                  (lights (store_position st1 lat lng ts));
      mqtt_connected := mqtt_connected (store_position st1 lat lng ts) |})
    by exact (eq_sym (f_equal snd Hrun)).
  rewrite Hst. cbn [ambulance lights store_position]. split; [reflexivity|].
  destruct Hwf1 as (_ & Hd1 & _), Hwf2 as (_ & Hd2 & _).
  exact (apply_writes_complete rt lat lng _ _ Hok Hd2 Hd1).
Qed.

Lemma session_after_nan_well_formed :
  well_formed (on_message small_angle_runtime nan_latitude session_at_A).
Proof.
  apply on_message_well_formed, on_message_well_formed, initial_state_well_formed.
Qed.

Lemma complete_message_overrides_history_witness :
  ambulance (on_message small_angle_runtime at_intersection_A
               (on_message small_angle_runtime nan_latitude session_at_A))
  = ambulance session_at_A ∧
  lights (on_message small_angle_runtime at_intersection_A
            (on_message small_angle_runtime nan_latitude session_at_A))
  = lights session_at_A.
Proof.
  apply (complete_message_overrides_history small_angle_runtime _
           (VFloat 12.9716) (VFloat 77.5946) initial_state
           (on_message small_angle_runtime nan_latitude session_at_A)).
  - exact initial_state_well_formed.
  - exact session_after_nan_well_formed.
  - reflexivity.
  - reflexivity.
  - exact at_intersection_A_completes.
Defined.

(** * A loop abandoned half-way *)

Lemma for_each_app {A} (body : A → Cmd unit) xs ys st :
  for_each body (xs ++ ys) st =
  match for_each body xs st with
  | (Ok _, st') => for_each body ys st'
  | (Raise e, st') => (Raise e, st')
  end.
Proof.
  revert st. induction xs as [|x xs IH]; intros st; [reflexivity|].
  simpl. unfold mbind, cmd_bind.
  destruct (body x st) as [[[]|e] st1]; [apply IH | reflexivity].
Qed.

Lemma for_each_all_ok rt lat lng its : ∀ st,
  Forall (λ i, ∃ d, haversine rt lat lng (inter_lat i) (inter_lng i) = Ok d) its →
  ∃ st', for_each (update_light rt lat lng) its st = (Ok (), st').
Proof.
  induction its as [|i rest IH]; intros st Hall; [by eexists|].
  apply Forall_cons in Hall as [[d Hd] Hall].
  simpl. unfold mbind, cmd_bind. rewrite update_light_unfold, Hd.
  apply IH, Hall.
Qed.

(** X9: when the distance computation raises at some intersection, the
    position of the message is already stored, the intersections visited
    before it have the light their distance asks for, and the failing
    intersection and all later ones keep the light they had; the exception
    stops at the [except] clause. *)
Theorem on_message_partial_update rt msg st lat lng ts pre it post e :
  parse_update rt st msg = Ok (lat, lng, ts) →
  INTERSECTIONS = pre ++ it :: post →
  Forall (λ i, ∃ d, haversine rt lat lng (inter_lat i) (inter_lng i) = Ok d) pre →
  haversine rt lat lng (inter_lat it) (inter_lng it) = Raise e →
  ∃ st',
    on_message_try rt msg st = (Raise e, st') ∧
    position st' = Some (lat, lng) ∧
    Forall (λ i, ∃ d,
              haversine rt lat lng (inter_lat i) (inter_lng i) = Ok d ∧
              lights st' !! inter_name i =
              Some (if (d <=? GREEN_DISTANCE_METERS)%float then "green" else "red"))
      pre ∧
    Forall (λ i, lights st' !! inter_name i = lights st !! inter_name i)
      (it :: post).
Proof.
  intros Hp Hsplit Hpre Hraise.
  pose proof INTERSECTIONS_names_NoDup as Hnd.
  rewrite Hsplit, fmap_app in Hnd. apply NoDup_app in Hnd as (Hnd_pre & Hdisj & _).
  destruct (for_each_all_ok rt lat lng pre (store_position st lat lng ts) Hpre)
    as [st1 Hrun].
  exists st1. split; [|split; [|split]].
  - rewrite on_message_try_unfold, Hp, Hsplit, for_each_app, Hrun.
    simpl. unfold mbind, cmd_bind. rewrite update_light_unfold, Hraise. reflexivity.
  - destruct (for_each_frame _ _ _ _ _ _ _ Hrun) as (Ha & _).
    unfold position. rewrite Ha. reflexivity.
  - apply Forall_forall. intros i Hi.
    exact (for_each_lights rt lat lng pre _ _ Hnd_pre Hrun i Hi).
  - apply Forall_forall. intros i Hi.
    destruct (for_each_frame _ _ _ _ _ _ _ Hrun) as (_ & _ & Hl).
    rewrite Hl; [reflexivity|].
    intros Hin. apply (Hdisj _ Hin).
    apply list_elem_of_fmap. exists i. auto.
Qed.

Lemma on_message_partial_update_witness :
  ∃ st',
    on_message_try measured_runtime over_the_pole_at_B session_at_C
    = (Raise ValueError, st') ∧
    position st' = Some (167.025%float, (-102.41)%float) ∧
    Forall (λ i, ∃ d,
              haversine measured_runtime 167.025 (-102.41)
                (inter_lat i) (inter_lng i) = Ok d ∧
              lights st' !! inter_name i =
              Some (if (d <=? GREEN_DISTANCE_METERS)%float then "green" else "red"))
      [{| inter_name := "Intersection A"; inter_lat := 12.9716;
          inter_lng := 77.5946 |}] ∧
    Forall (λ i, lights st' !! inter_name i = lights session_at_C !! inter_name i)
      [{| inter_name := "Intersection B"; inter_lat := 12.9750;
          inter_lng := 77.5900 |};
       {| inter_name := "Intersection C"; inter_lat := 12.9680;
          inter_lng := 77.6000 |}].
Proof.
  apply (on_message_partial_update measured_runtime over_the_pole_at_B session_at_C
           167.025 (-102.41) VNone).
  - vm_compute. reflexivity.
  - reflexivity.
  - apply Forall_cons. split; [|apply Forall_nil; exact I].
    exists 625.5992817021652%float. vm_compute. reflexivity.
  - vm_compute. reflexivity.
Defined.
